(** * Audio-reactive visualizers: a shallow embedding of
      [nodes/audio/flex_audio_visualizer.py]

    Conventions of the embedding.

    - A Python/numpy float is a rational number ([Q]); [+], [-], [*] and [/]
      are exact.  Equality of floats is [Qeq] ([==]), comparisons are the
      boolean tests of [Q].
    - A Python exception is a value of [exn]; a method that may raise returns
      a [result].
    - numpy's division of an array by a zero scalar produces [nan]/[inf]
      entries (with a warning).  [Q] has no such values: the embedding reports
      that division as the fault [FloatingPointError].
    - The numeric kernels that numpy supplies ([abs . fft.rfft], [log1p],
      [hanning], [cos], [sin], [pi], [convolve]) are not code of this repository; they are
      parameters of the embedding, collected in the record [Kernels].
    - An image is its shape together with the list of drawing calls applied to
      the all-zero array; OpenCV's rasterisation itself is not modelled. *)

From Stdlib Require Import ZArith QArith Qround Qabs Lqa Lia.
From stdpp Require Import base option list strings gmap.

Local Open Scope Q_scope.

(** ** Exceptions *)

Inductive exn : Type :=
| ValueError
| TypeError
| IndexError
| ZeroDivisionError
| FloatingPointError.

Inductive result (A : Type) : Type :=
| Ok (a : A)
| Err (e : exn).
Arguments Ok {A} a.
Arguments Err {A} e.

#[global] Instance result_ret : MRet result := fun A a => Ok a.
#[global] Instance result_bind : MBind result :=
  fun A B f m => match m with Ok a => f a | Err e => Err e end.

Definition is_ok {A} (r : result A) : bool :=
  match r with Ok _ => true | Err _ => false end.

(** ** Python numbers *)

Definition Qlt_bool (x y : Q) : bool := negb (Qle_bool y x).

(** [int(x)] on a float: truncation toward zero. *)
Definition py_int (x : Q) : Z := Z.quot (Qnum x) (Zpos (Qden x)).

(** [a / b] on Python numbers. *)
Definition py_div (a b : Q) : result Q :=
  if Qeq_bool b 0 then Err ZeroDivisionError else Ok (a / b).

(** [a % b] on floats, for [b > 0]: the result has the sign of [b]. *)
Definition py_mod (a b : Q) : Q := a - b * inject_Z (Qfloor (a / b)).

(** [round(x)] on a float: to the nearest integer, ties to even. *)
Definition py_round (x : Q) : Z :=
  let f := Qfloor x in
  let r := x - inject_Z f in
  if Qlt_bool r (1 # 2) then f
  else if Qlt_bool (1 # 2) r then (f + 1)%Z
  else if Z.even f then f else (f + 1)%Z.

(** Index normalisation of [l[start:stop]]: a negative index counts from the
    end, and both ends are clamped to [0, len]. *)
Definition slice_index (len i : Z) : Z :=
  if (i <? 0)%Z then Z.max 0 (i + len) else Z.min i len.

Definition py_slice {A} (l : list A) (start stop : Z) : list A :=
  let n := Z.of_nat (length l) in
  let lo := slice_index n start in
  let hi := slice_index n stop in
  take (Z.to_nat (hi - lo)) (drop (Z.to_nat lo) l).

(** ** BaseAudioProcessor *)

Record BaseAudioProcessor : Type := mkProcessor {
  audio : list Q;          (* mono samples *)
  sample_rate : Z;
  num_frames : Z;
  height : Z;
  width : Z;
  frame_rate : Q;
  audio_duration : Q;
  frame_duration : Q
}.

(** The input [audio]: the mono mix of [audio['waveform']] (the torch
    expression [.squeeze(0).mean(axis=0)]) and [audio['sample_rate']]. *)
Record Audio : Type := mkAudio {
  waveform_mono : list Q;
  audio_sample_rate : Z
}.

Definition len {A} (l : list A) : Z := Z.of_nat (length l).

Definition BaseAudioProcessor_init
    (a : Audio) (num_frames height width : Z) (frame_rate : Q)
  : result BaseAudioProcessor :=
  audio_duration ← py_div (inject_Z (len (waveform_mono a)))
                          (inject_Z (audio_sample_rate a));
  frame_duration ← (if Qlt_bool 0 frame_rate then py_div 1 frame_rate
                    else py_div audio_duration (inject_Z num_frames));
  mret (mkProcessor (waveform_mono a) (audio_sample_rate a) num_frames
                    height width frame_rate audio_duration frame_duration).

Definition _get_audio_frame (self : BaseAudioProcessor) (frame_index : Z)
  : list Q :=
  let start_time := inject_Z frame_index * frame_duration self in
  let end_time := inject_Z (frame_index + 1) * frame_duration self in
  let start_sample := py_int (start_time * inject_Z (sample_rate self)) in
  let end_sample := py_int (end_time * inject_Z (sample_rate self)) in
  py_slice (audio self) start_sample end_sample.

(** ** Keyword arguments *)

(** The values a node parameter can hold: the host passes [INT], [FLOAT] and
    [BOOLEAN] inputs; a modulated parameter is a float. *)
Inductive pyval : Type :=
| VInt (z : Z)
| VFloat (q : Q)
| VBool (b : bool).

Definition to_num (v : pyval) : Q :=
  match v with
  | VInt z => inject_Z z
  | VFloat q => q
  | VBool b => if b then 1 else 0
  end.

(** [kwargs.get(name)] followed by a numeric use.  On a missing name Python
    yields [None], and every numeric use of [None] raises [TypeError]; the
    embedding raises it at the lookup. *)
Definition kw_num (kwargs : gmap string pyval) (name : string) : result Q :=
  match kwargs !! name with
  | Some v => Ok (to_num v)
  | None => Err TypeError
  end.

(** A value used where numpy or a slice needs an integer (a shape, a
    transform size, a pad width): a float raises [TypeError]. *)
Definition kw_index (kwargs : gmap string pyval) (name : string) : result Z :=
  match kwargs !! name with
  | Some (VInt z) => Ok z
  | Some (VBool b) => Ok (if b then 1 else 0)%Z
  | Some (VFloat _) => Err TypeError
  | None => Err TypeError
  end.

(** [round(kwargs.get(name))]. *)
Definition kw_round (kwargs : gmap string pyval) (name : string) : result Z :=
  match kwargs !! name with
  | Some (VInt z) => Ok z
  | Some (VBool b) => Ok (if b then 1 else 0)%Z
  | Some (VFloat q) => Ok (py_round q)
  | None => Err TypeError
  end.

(** Truthiness of [kwargs.get(name)]; [None] is false. *)
Definition kw_truthy (kwargs : gmap string pyval) (name : string) : bool :=
  match kwargs !! name with
  | Some v => negb (Qeq_bool (to_num v) 0)
  | None => false
  end.

(** ** numpy on one-dimensional float arrays *)

Definition np_zeros (n : Z) : result (list Q) :=
  if (n <? 0)%Z then Err ValueError else Ok (replicate (Z.to_nat n) 0).

Definition Qmax (a b : Q) : Q := if Qle_bool a b then b else a.

(** [np.max]: raises on a zero-size array. *)
Definition np_max (a : list Q) : result Q :=
  match a with
  | [] => Err ValueError
  | x :: rest => Ok (foldl Qmax x rest)
  end.

Definition np_all_zero (a : list Q) : bool := forallb (fun x => Qeq_bool x 0) a.

Definition np_scale (c : Q) (a : list Q) : list Q := map (Qmult c) a.

(** [a / m] for an array [a] and a scalar [m]. *)
Definition np_div_scalar (a : list Q) (m : Q) : result (list Q) :=
  if Qeq_bool m 0 then Err FloatingPointError
  else Ok (map (fun x => x / m) a).

(** Elementwise binary operation with numpy's broadcasting of length-one
    arrays. *)
Definition np_zip (f : Q -> Q -> Q) (a b : list Q) : result (list Q) :=
  if (length a =? length b)%nat then Ok (zip_with f a b)
  else match a, b with
       | [x], _ => Ok (map (f x) b)
       | _, [y] => Ok (map (fun x => f x y) a)
       | _, _ => Err ValueError
       end.

Definition np_add := np_zip Qplus.
Definition np_mul := np_zip Qmult.

(** [np.pad(a, (0, k), mode='constant')] for [k >= 0]. *)
Definition np_pad_right (a : list Q) (k : Z) : list Q :=
  a ++ replicate (Z.to_nat k) 0.

Definition np_arange (n : nat) : list Q :=
  map (fun i => inject_Z (Z.of_nat i)) (seq 0 n).

(** [np.linspace(start, stop, num, endpoint)]. *)
Definition np_linspace (start stop : Q) (num : Z) (endpoint : bool)
  : result (list Q) :=
  if (num <? 0)%Z then Err ValueError
  else
    let div := if endpoint then (num - 1)%Z else num in
    let step := (stop - start) / inject_Z div in
    Ok (map (fun i => start + inject_Z (Z.of_nat i) * step)
            (seq 0 (Z.to_nat num))).

(** [np.fft.rfftfreq(n, d)]: the centre frequencies of the [n/2 + 1] bins. *)
Definition np_rfftfreq (n : Z) (d : Q) : list Q :=
  let val := 1 / (inject_Z n * d) in
  map (fun k => k * val) (np_arange (Z.to_nat (n / 2 + 1))).

(** [np.where(lo <= freqs <= hi)[0]]. *)
Fixpoint where_between (lo hi : Q) (i : nat) (freqs : list Q) : list nat :=
  match freqs with
  | [] => []
  | f :: rest =>
      if Qle_bool lo f && Qle_bool f hi
      then i :: where_between lo hi (S i) rest
      else where_between lo hi (S i) rest
  end.

(** [a[indices]] for an integer index array. *)
Fixpoint np_take (a : list Q) (indices : list nat) : result (list Q) :=
  match indices with
  | [] => Ok []
  | i :: rest =>
      match a !! i with
      | Some x => xs ← np_take a rest; mret (x :: xs)
      | None => Err IndexError
      end
  end.

(** [np.interp(x, xp, fp)] for increasing sample points [xp]: piecewise
    linear between the sample points, constant outside of them. *)
Fixpoint interp_from (x x0 y0 : Q) (pts : list (Q * Q)) : Q :=
  match pts with
  | [] => y0
  | (x1, y1) :: rest =>
      if Qlt_bool x x1 then y0 + (y1 - y0) / (x1 - x0) * (x - x0)
      else interp_from x x1 y1 rest
  end.

Definition np_interp (x xp fp : list Q) : result (list Q) :=
  if negb (length xp =? length fp)%nat then Err ValueError
  else match zip xp fp with
       | [] => Err ValueError
       | (x0, y0) :: rest =>
           Ok (map (fun v => if Qle_bool v x0 then y0
                             else interp_from v x0 y0 rest) x)
       end.

(** The value a [get_audio_data] returns: [None], a float, or [nan] (the mean
    of a zero-size array). *)
Inductive feature_result : Type :=
| RNone
| RFloat (q : Q)
| RNan.

Definition np_mean (a : list Q) : feature_result :=
  match a with
  | [] => RNan
  | _ => RFloat (foldr Qplus 0 a / inject_Z (len a))
  end.

(** ** Kernels supplied by numpy *)

Record Kernels : Type := mkKernels {
  (** [np.abs(np.fft.rfft(a, n=n))], for [n >= 1]. *)
  rfft_abs : list Q -> Z -> list Q;
  log1p : Q -> Q;
  (** [np.hanning(M)]. *)
  hanning : nat -> list Q;
  cos : Q -> Q;
  sin : Q -> Q;
  pi : Q;
  (** [np.convolve(a, v, mode='same')]. *)
  convolve_same : list Q -> list Q -> result (list Q)
}.

(** [np.abs(np.fft.rfft(a, n=n))] with the check numpy makes on [n]. *)
Definition np_rfft_abs (K : Kernels) (a : list Q) (n : Z) : result (list Q) :=
  if (n <? 1)%Z then Err ValueError else Ok (rfft_abs K a n).

(** ** Images *)

Inductive draw_call : Type :=
| cv2_rectangle (pt1 pt2 : Z * Z)
| paste_rect (y_start y_end x x_end : Z) (radius : Z)
| cv2_line (pt1 pt2 : Z * Z) (thickness : Q)
| cv2_polylines (pts : list (Z * Z)) (isClosed : bool) (thickness : Q)
| cv2_warpAffine (angle : Q).

Record Image : Type := mkImage {
  img_shape : list Z;
  img_calls : list draw_call
}.

(** [np.zeros((h, w, 3), dtype=np.float32)]. *)
Definition np_zeros_image (h w : Z) : result Image :=
  if ((h <? 0) || (w <? 0))%Z then Err ValueError
  else Ok (mkImage [h; w; 3%Z] []).

Definition image_draw (im : Image) (c : draw_call) : Image :=
  mkImage (img_shape im) (img_calls im ++ [c]).

(** [rotate_image]: [cv2.warpAffine] to the same width and height. *)
Definition rotate_image (im : Image) (angle : Q) : Image :=
  image_draw im (cv2_warpAffine angle).

(** A stacked tensor of frames. *)
Record Tensor : Type := mkTensor {
  t_shape : list Z;
  t_frames : list Image
}.

Definition shape_eqb (s1 s2 : list Z) : bool :=
  bool_decide (s1 = s2).

(** [np.stack(arrays)]: the arrays must be at least one and all of one
    shape. *)
Definition np_stack (arrays : list Image) : result Tensor :=
  match arrays with
  | [] => Err ValueError
  | im :: rest =>
      if forallb (fun im' => shape_eqb (img_shape im') (img_shape im)) rest
      then Ok (mkTensor (len arrays :: img_shape im) arrays)
      else Err ValueError
  end.

(** Number of elements selected by [a[start:stop]] on an axis of size [n]. *)
Definition slice_len (n start stop : Z) : Z :=
  Z.max 0 (slice_index n stop - slice_index n start).

Definition Qmin (a b : Q) : Q := if Qle_bool a b then a else b.

(** [smoothing * state + (1 - smoothing) * data]. *)
Definition smooth_update (smoothing : Q) (state data : list Q)
  : result (list Q) :=
  np_add (np_scale smoothing state) (np_scale (1 - smoothing) data).

(** [if state is None or len(state) != n: state = np.zeros(n)]. *)
Definition init_state (state : option (list Q)) (n : Z) : result (list Q) :=
  match state with
  | None => np_zeros n
  | Some s => if negb (len s =? n)%Z then np_zeros n else Ok s
  end.

(** ** FlexAudioVisualizerBase *)

(** The interface of a visualizer: what a subclass of
    [FlexAudioVisualizerBase] overrides.  [S] is the state the instance keeps
    between calls ([self.bars] or [self.spectrum]). *)
Class Visualizer (S : Type) : Type := {
  vis_init : S;
  get_modifiable_params : list string;
  get_audio_data :
    S -> BaseAudioProcessor -> Z -> gmap string pyval ->
    result (S * feature_result);
  draw : S -> BaseAudioProcessor -> gmap string pyval -> result (S * Image)
}.

Definition modulate_param (param_name : string) (param_value : pyval)
    (feature_value strength : Q) (mode : string) : pyval :=
  if bool_decide (mode = "relative"%string)
  then VFloat (to_num param_value * (1 + (feature_value - (1 # 2)) * strength))
  else VFloat (to_num param_value * feature_value * strength).

Section Visualizers.

Variable K : Kernels.

(** [spectrum = np.log1p(spectrum)] followed by
    [if np.max(spectrum) != 0: spectrum = spectrum / np.max(spectrum)]. *)
Definition log_normalize (spectrum : list Q) : result (list Q) :=
  let spectrum := map (log1p K) spectrum in
  m ← np_max spectrum;
  if negb (Qeq_bool m 0) then np_div_scalar spectrum m else Ok spectrum.

(** *** FlexAudioVisualizerBar *)

Definition Bar_get_modifiable_params : list string :=
  ["curvature"; "separation"; "max_height"; "min_height"; "num_bars";
   "smoothing"; "rotation"; "position_y"; "reflect"; "None"]%string.

(** The feature vector [data] of a frame: the branch on the length of the
    frame in [get_audio_data]. *)
Definition Bar_data (processor : BaseAudioProcessor) (frame_index : Z)
    (num_bars : Z) : result (list Q) :=
  let audio_frame := _get_audio_frame processor frame_index in
  if (len audio_frame =? 0)%Z then np_zeros num_bars
  else
    spectrum ← np_rfft_abs K audio_frame (num_bars * 2);
    spectrum ← log_normalize spectrum;
    mret (py_slice spectrum 0 num_bars).

Definition Bar_get_audio_data (self : option (list Q))
    (processor : BaseAudioProcessor) (frame_index : Z)
    (kwargs : gmap string pyval)
  : result (option (list Q) * feature_result) :=
  num_bars ← kw_index kwargs "num_bars";
  smoothing ← kw_num kwargs "smoothing";
  data ← Bar_data processor frame_index num_bars;
  bars ← init_state self num_bars;
  bars ← smooth_update smoothing bars data;
  mret (Some bars, np_mean bars).

Definition Bar_draw_bar (curvature : Z)
    (separation max_height min_height bar_width : Q) (reflect : bool)
    (baseline_y screen_height screen_width : Z)
    (image : Image) (i : Z) (bar_value : Q) : result Image :=
  let x := py_int (inject_Z i * (bar_width + separation)) in
  let bar_h := min_height + (max_height - min_height) * bar_value in
  let y_start := py_int (inject_Z baseline_y - bar_h) in
  let y_end := if reflect then py_int (inject_Z baseline_y + bar_h)
               else baseline_y in
  let y_start := Z.max (Z.min y_start (screen_height - 1)) 0 in
  let y_end := Z.max (Z.min y_end (screen_height - 1)) 0 in
  let '(y_start, y_end) :=
    if (y_start >? y_end)%Z then (y_end, y_start) else (y_start, y_end) in
  let x_end := py_int (inject_Z x + bar_width) in
  let rect_width := Z.max 1 (py_int bar_width) in
  let rect_height := Z.max 1 (y_end - y_start) in
  if ((curvature >? 0) && (rect_width >? 1) && (rect_height >? 1))%Z then
    let radius :=
      Z.max 1 (Z.min (Z.min curvature (rect_width / 2)) (rect_height / 2)) in
    (* image[y_start:y_end, x:x+rect_width] = rect *)
    if ((slice_len screen_height y_start y_end =? rect_height) &&
        (slice_len screen_width x (x + rect_width) =? rect_width))%Z
    then Ok (image_draw image
               (paste_rect y_start y_end x (x + rect_width) radius))
    else Err ValueError
  else Ok (image_draw image (cv2_rectangle (x, y_start) (x_end, y_end))).

(** [for i, v in enumerate(values): image = body image i v]. *)
Fixpoint for_enumerate {A B} (body : B -> Z -> A -> result B)
    (values : list A) (i : Z) (acc : B) : result B :=
  match values with
  | [] => Ok acc
  | v :: rest => acc' ← body acc i v; for_enumerate body rest (i + 1)%Z acc'
  end.

Definition Bar_draw (self : option (list Q)) (processor : BaseAudioProcessor)
    (kwargs : gmap string pyval) : result (option (list Q) * Image) :=
  curvature ← kw_num kwargs "curvature";
  let curvature := py_int curvature in
  separation ← kw_num kwargs "separation";
  max_height ← kw_num kwargs "max_height";
  min_height ← kw_num kwargs "min_height";
  num_bars ← kw_num kwargs "num_bars";
  rotation ← kw_num kwargs "rotation";
  let rotation := py_mod rotation 360 in
  let screen_width := width processor in
  let screen_height := height processor in
  position_y ← kw_num kwargs "position_y";
  let reflect := kw_truthy kwargs "reflect" in
  let total_separation := separation * (num_bars - 1) in
  let total_bar_width := inject_Z screen_width - total_separation in
  bar_width ← py_div total_bar_width num_bars;
  let baseline_y := py_int (inject_Z screen_height * position_y) in
  image ← np_zeros_image screen_height screen_width;
  bars ← (match self with Some b => Ok b | None => Err TypeError end);
  image ← for_enumerate
            (Bar_draw_bar curvature separation max_height min_height bar_width
               reflect baseline_y screen_height screen_width)
            bars 0%Z image;
  let image := if negb (Qeq_bool rotation 0) then rotate_image image rotation
               else image in
  mret (self, image).

#[local] Instance Bar : Visualizer (option (list Q)) := {|
  vis_init := None;
  get_modifiable_params := Bar_get_modifiable_params;
  get_audio_data := Bar_get_audio_data;
  draw := Bar_draw
|}.

(** *** The frequency-domain variants *)

(** The lines the three frequency-domain [get_audio_data] share: pad the
    frame to [fft_size], apply the Hann window, take the magnitude spectrum
    and keep the bins whose frequency lies in
    [[min_frequency, max_frequency]]. *)
Definition band_spectrum (processor : BaseAudioProcessor)
    (audio_frame : list Q) (fft_size : Z) (kwargs : gmap string pyval)
  : result (list Q) :=
  let audio_frame :=
    if (len audio_frame <? fft_size)%Z
    then np_pad_right audio_frame (fft_size - len audio_frame)
    else audio_frame in
  let window := hanning K (length audio_frame) in
  audio_frame ← np_mul audio_frame window;
  spectrum ← np_rfft_abs K audio_frame fft_size;
  d ← py_div 1 (inject_Z (sample_rate processor));
  let freqs := np_rfftfreq fft_size d in
  min_freq ← kw_num kwargs "min_frequency";
  max_freq ← kw_num kwargs "max_frequency";
  let freq_indices := where_between min_freq max_freq 0 freqs in
  np_take spectrum freq_indices.

(** [np.interp(np.linspace(0, len(spectrum), num_points, endpoint=False),
               np.arange(len(spectrum)), spectrum)]. *)
Definition resample_bins (spectrum : list Q) (num_points : Z)
  : result (list Q) :=
  x ← np_linspace 0 (inject_Z (len spectrum)) num_points false;
  np_interp x (np_arange (length spectrum)) spectrum.

Definition FreqAmplitude_get_modifiable_params : list string :=
  ["max_frequency"; "min_frequency"; "smoothing"; "fft_size"; "position_y";
   "reflect"; "curve_smoothing"; "rotation"; "None"]%string.

(** The normalized spectrum of a frame, before it is blended into the
    state. *)
Definition FreqAmplitude_data (processor : BaseAudioProcessor)
    (frame_index : Z) (fft_size : Z) (kwargs : gmap string pyval)
  : result (list Q) :=
  let audio_frame := _get_audio_frame processor frame_index in
  spectrum ← band_spectrum processor audio_frame fft_size kwargs;
  log_normalize spectrum.

Definition FreqAmplitude_get_audio_data (self : option (list Q))
    (processor : BaseAudioProcessor) (frame_index : Z)
    (kwargs : gmap string pyval)
  : result (option (list Q) * feature_result) :=
  fft_size ← kw_index kwargs "fft_size";
  smoothing ← kw_num kwargs "smoothing";
  spectrum ← FreqAmplitude_data processor frame_index fft_size kwargs;
  state ← init_state self (len spectrum);
  state ← smooth_update smoothing state spectrum;
  mret (Some state, RNone).

Definition smooth_curve (y : list Q) (window_size : Z) : result (list Q) :=
  if (window_size <? 3)%Z then Ok y
  else
    let box := replicate (Z.to_nat window_size) (1 / inject_Z window_size) in
    convolve_same K y box.

(** [np.array([xs, ys]).T.astype(np.int32)]. *)
Definition int_points (xs ys : list Q) : list (Z * Z) :=
  zip_with (fun x y => (py_int x, py_int y)) xs ys.

Definition draw_curve (image : Image) (points : list (Z * Z)) : Image :=
  if (1 <? len points)%Z then image_draw image (cv2_polylines points false 1)
  else image.

Definition FreqAmplitude_draw (self : option (list Q))
    (processor : BaseAudioProcessor) (kwargs : gmap string pyval)
  : result (option (list Q) * Image) :=
  position_y ← kw_num kwargs "position_y";
  let reflect := kw_truthy kwargs "reflect" in
  curve_smoothing ← kw_num kwargs "curve_smoothing";
  rotation ← kw_num kwargs "rotation";
  let rotation := py_mod rotation 360 in
  let screen_width := width processor in
  let screen_height := height processor in
  let baseline_y := inject_Z screen_height * position_y in
  let max_amplitude :=
    Qmin baseline_y (inject_Z screen_height - baseline_y) in
  spectrum ← (match self with Some s => Ok s | None => Err TypeError end);
  spectrum_smooth ←
    (if Qlt_bool 0 curve_smoothing then
       let window_size := py_int (inject_Z (len spectrum) * curve_smoothing) in
       let window_size :=
         if Z.even window_size then (window_size + 1)%Z else window_size in
       if (window_size >? 2)%Z then smooth_curve spectrum window_size
       else Ok spectrum
     else Ok spectrum);
  let amplitude := np_scale max_amplitude spectrum_smooth in
  let num_points := len amplitude in
  x_values ← np_linspace 0 (inject_Z screen_width) num_points true;
  image ← np_zeros_image screen_height screen_width;
  let image :=
    if reflect then
      let y_values_up := map (fun a => baseline_y - a) amplitude in
      let y_values_down := map (fun a => baseline_y + a) amplitude in
      let points_up := int_points x_values y_values_up in
      let points_down := int_points x_values y_values_down in
      draw_curve (draw_curve image points_up) points_down
    else
      let y_values := map (fun a => baseline_y - a) amplitude in
      draw_curve image (int_points x_values y_values) in
  let image := if negb (Qeq_bool rotation 0) then rotate_image image rotation
               else image in
  mret (self, image).

#[local] Instance FreqAmplitude : Visualizer (option (list Q)) := {|
  vis_init := None;
  get_modifiable_params := FreqAmplitude_get_modifiable_params;
  get_audio_data := FreqAmplitude_get_audio_data;
  draw := FreqAmplitude_draw
|}.

Definition Circular_get_modifiable_params : list string :=
  ["max_frequency"; "min_frequency"; "smoothing"; "fft_size"; "radius";
   "num_points"; "line_width"; "rotation"; "None"]%string.

(** The feature vector [data] of a frame. *)
Definition Circular_data (processor : BaseAudioProcessor) (frame_index : Z)
    (fft_size num_points : Z) (kwargs : gmap string pyval)
  : result (list Q) :=
  let audio_frame := _get_audio_frame processor frame_index in
  spectrum ← band_spectrum processor audio_frame fft_size kwargs;
  spectrum ← log_normalize spectrum;
  resample_bins spectrum num_points.

Definition Circular_get_audio_data (self : option (list Q))
    (processor : BaseAudioProcessor) (frame_index : Z)
    (kwargs : gmap string pyval)
  : result (option (list Q) * feature_result) :=
  fft_size ← kw_index kwargs "fft_size";
  smoothing ← kw_num kwargs "smoothing";
  num_points ← kw_round kwargs "num_points";
  data ← Circular_data processor frame_index fft_size num_points kwargs;
  state ← init_state self num_points;
  state ← smooth_update smoothing state data;
  mret (Some state, np_mean state).

(** [np.linspace(0, 2 * np.pi, num_points, endpoint=False)] shifted by
    [np.deg2rad(rotation)]. *)
Definition circle_angles (num_points : Z) (rotation : Q) : result (list Q) :=
  angles ← np_linspace 0 (2 * pi K) num_points false;
  let rotation_rad := rotation * (pi K / 180) in
  mret (map (fun a => a + rotation_rad) angles).

(** [if len(self.spectrum) != num_points: self.spectrum = np.interp(
       np.linspace(0, 1, num_points),
       np.linspace(0, 1, len(self.spectrum)), self.spectrum)]. *)
Definition match_points (self : option (list Q)) (num_points : Z)
  : result (list Q) :=
  spectrum ← (match self with Some s => Ok s | None => Err TypeError end);
  if negb (len spectrum =? num_points)%Z then
    x ← np_linspace 0 1 num_points true;
    xp ← np_linspace 0 1 (len spectrum) true;
    np_interp x xp spectrum
  else Ok spectrum.

Definition Circular_draw (self : option (list Q))
    (processor : BaseAudioProcessor) (kwargs : gmap string pyval)
  : result (option (list Q) * Image) :=
  num_points ← kw_round kwargs "num_points";
  radius ← kw_num kwargs "radius";
  line_width ← kw_num kwargs "line_width";
  rotation ← kw_num kwargs "rotation";
  let rotation := py_mod rotation 360 in
  let screen_width := width processor in
  let screen_height := height processor in
  image ← np_zeros_image screen_height screen_width;
  let center_x := inject_Z screen_width / 2 in
  let center_y := inject_Z screen_height / 2 in
  angles ← circle_angles num_points rotation;
  spectrum ← match_points self num_points;
  let image :=
    foldl (fun image '(angle, amplitude) =>
             let x_start := center_x + radius * cos K angle in
             let y_start := center_y + radius * sin K angle in
             let extended_radius := radius + amplitude * radius in
             let x_end := center_x + extended_radius * cos K angle in
             let y_end := center_y + extended_radius * sin K angle in
             image_draw image
               (cv2_line (py_int x_start, py_int y_start)
                         (py_int x_end, py_int y_end) line_width))
          image (zip angles spectrum) in
  mret (Some spectrum, image).

#[local] Instance Circular : Visualizer (option (list Q)) := {|
  vis_init := None;
  get_modifiable_params := Circular_get_modifiable_params;
  get_audio_data := Circular_get_audio_data;
  draw := Circular_draw
|}.

Definition CircleDeform_get_modifiable_params : list string :=
  ["max_frequency"; "min_frequency"; "smoothing"; "fft_size"; "base_radius";
   "num_points"; "amplitude_scale"; "line_width"; "rotation"; "None"]%string.

(** The feature vector [data] of a frame. *)
Definition CircleDeform_data (processor : BaseAudioProcessor)
    (frame_index : Z) (fft_size num_points : Z) (kwargs : gmap string pyval)
  : result (list Q) :=
  let audio_frame := _get_audio_frame processor frame_index in
  spectrum ← band_spectrum processor audio_frame fft_size kwargs;
  spectrum ←
    (if (len spectrum =? 0)%Z || np_all_zero spectrum then np_zeros num_points
     else
       let spectrum := map (log1p K) spectrum in
       m ← np_max spectrum;
       np_div_scalar spectrum m);
  resample_bins spectrum num_points.

Definition CircleDeform_get_audio_data (self : option (list Q))
    (processor : BaseAudioProcessor) (frame_index : Z)
    (kwargs : gmap string pyval)
  : result (option (list Q) * feature_result) :=
  fft_size ← kw_index kwargs "fft_size";
  smoothing ← kw_num kwargs "smoothing";
  num_points ← kw_round kwargs "num_points";
  data ← CircleDeform_data processor frame_index fft_size num_points kwargs;
  state ← init_state self num_points;
  state ← smooth_update smoothing state data;
  mret (Some state, np_mean state).

Definition CircleDeform_draw (self : option (list Q))
    (processor : BaseAudioProcessor) (kwargs : gmap string pyval)
  : result (option (list Q) * Image) :=
  num_points ← kw_round kwargs "num_points";
  base_radius ← kw_num kwargs "base_radius";
  amplitude_scale ← kw_num kwargs "amplitude_scale";
  line_width ← kw_num kwargs "line_width";
  rotation ← kw_num kwargs "rotation";
  let rotation := py_mod rotation 360 in
  let screen_width := width processor in
  let screen_height := height processor in
  image ← np_zeros_image screen_height screen_width;
  let center_x := inject_Z screen_width / 2 in
  let center_y := inject_Z screen_height / 2 in
  angles ← circle_angles num_points rotation;
  spectrum ← match_points self num_points;
  let radii := map (fun s => base_radius + s * amplitude_scale) spectrum in
  x_offsets ← np_mul radii (map (cos K) angles);
  y_offsets ← np_mul radii (map (sin K) angles);
  let x_values := map (fun v => center_x + v) x_offsets in
  let y_values := map (fun v => center_y + v) y_offsets in
  let points := int_points x_values y_values in
  let image :=
    if (2 <? len points)%Z
    then image_draw image (cv2_polylines points true line_width)
    else image in
  mret (Some spectrum, image).

#[local] Instance CircleDeform : Visualizer (option (list Q)) := {|
  vis_init := None;
  get_modifiable_params := CircleDeform_get_modifiable_params;
  get_audio_data := CircleDeform_get_audio_data;
  draw := CircleDeform_draw
|}.

End Visualizers.

(** *** apply_effect *)

(** The calls [apply_effect] makes on its collaborators, in order: the
    progress bar, the two overridden methods and the optional feature
    source. *)
Inductive event : Type :=
| ev_start_progress (total_steps : Z)
| ev_get_audio_data (frame_index : Z)
| ev_get_value_at_frame (frame_index : Z)
| ev_draw (frame_index : Z)
| ev_update_progress
| ev_end_progress.

Record loop_state (S : Type) : Type := mkLoop {
  ls_self : S;
  ls_kwargs : gmap string pyval;
  ls_result : list Image
}.
Arguments mkLoop {S} _ _ _.
Arguments ls_self {S} _.
Arguments ls_kwargs {S} _.
Arguments ls_result {S} _.

(** [range(n)]. *)
Definition py_range (n : Z) : list Z := map Z.of_nat (seq 0 (Z.to_nat n)).

Section ApplyEffect.

Context {S : Type} `{V : Visualizer S}.

(** [for param_name in self.get_modifiable_params(): ...]. *)
Definition modulate_kwargs (kwargs : gmap string pyval)
    (feature_value strength : Q) (feature_param feature_mode : string)
  : gmap string pyval :=
  foldl (fun kwargs param_name =>
           match kwargs !! param_name with
           | Some v =>
               if bool_decide (param_name = feature_param)
               then <[param_name :=
                        modulate_param param_name v feature_value strength
                          feature_mode]> kwargs
               else kwargs
           | None => kwargs
           end)
        kwargs get_modifiable_params.

(** One iteration of [for i in range(num_frames)].  The log of calls is
    threaded apart from the loop state: it survives an exception. *)
Definition frame_body (processor : BaseAudioProcessor) (strength : Q)
    (feature_param feature_mode : string) (opt_feature : option (Z -> Q))
    (st : loop_state S) (i : Z) (log : list event)
  : list event * result (loop_state S) :=
  let log := log ++ [ev_get_audio_data i] in
  match get_audio_data (ls_self st) processor i (ls_kwargs st) with
  | Err e => (log, Err e)
  | Ok (self, _) =>
      let '(kwargs, log) :=
        match opt_feature with
        | Some f =>
            (modulate_kwargs (ls_kwargs st) (f i) strength feature_param
               feature_mode,
             log ++ [ev_get_value_at_frame i])
        | None => (ls_kwargs st, log)
        end in
      let log := log ++ [ev_draw i] in
      match draw self processor kwargs with
      | Err e => (log, Err e)
      | Ok (self, image) =>
          (log ++ [ev_update_progress],
           Ok (mkLoop self kwargs (ls_result st ++ [image])))
      end
  end.

Fixpoint for_frames (body : loop_state S -> Z -> list event ->
                            list event * result (loop_state S))
    (indices : list Z) (st : loop_state S) (log : list event)
  : list event * result (loop_state S) :=
  match indices with
  | [] => (log, Ok st)
  | i :: rest =>
      match body st i log with
      | (log, Ok st) => for_frames body rest st log
      | (log, Err e) => (log, Err e)
      end
  end.

Definition apply_effect (self : S) (audio : Audio) (frame_rate : Q)
    (screen_width screen_height : Z) (strength : Q)
    (feature_param feature_mode : string) (opt_feature : option (Z -> Q))
    (kwargs : gmap string pyval)
  : list event * result (S * Tensor) :=
  match py_div (inject_Z (len (waveform_mono audio)))
               (inject_Z (audio_sample_rate audio)) with
  | Err e => ([], Err e)
  | Ok audio_duration =>
      let num_frames := py_int (audio_duration * frame_rate) in
      match BaseAudioProcessor_init audio num_frames screen_height
              screen_width frame_rate with
      | Err e => ([], Err e)
      | Ok processor =>
          let log := [ev_start_progress num_frames] in
          match for_frames
                  (frame_body processor strength feature_param feature_mode
                     opt_feature)
                  (py_range num_frames) (mkLoop self kwargs []) log with
          | (log, Err e) => (log, Err e)
          | (log, Ok st) =>
              let log := log ++ [ev_end_progress] in
              match np_stack (ls_result st) with
              | Err e => (log, Err e)
              | Ok result_np => (log, Ok (ls_self st, result_np))
              end
          end
      end
  end.

End ApplyEffect.

(** ** What the embedding assumes of numpy's kernels *)

Definition all_zero (a : list Q) : Prop := Forall (fun x => x == 0) a.
Definition all_in01 (a : list Q) : Prop := Forall (fun x => 0 <= x <= 1) a.

Record KernelLaws (K : Kernels) : Prop := mkKernelLaws {
  (** the one-sided spectrum of an [n]-point transform has [n/2 + 1] bins *)
  rfft_abs_length : forall a n,
    (1 <= n)%Z -> length (rfft_abs K a n) = Z.to_nat (n / 2 + 1);
  (** magnitudes are not negative *)
  rfft_abs_nonneg : forall a n, Forall (fun x => 0 <= x) (rfft_abs K a n);
  (** the transform of silence is zero *)
  rfft_abs_zero : forall a n, all_zero a -> all_zero (rfft_abs K a n);
  log1p_zero : forall x, x == 0 -> log1p K x == 0;
  log1p_nonneg : forall x, 0 <= x -> 0 <= log1p K x;
  hanning_length : forall M, length (hanning K M) = M
}.

(** ** A rational instance of the kernels

    Used to run the embedding on concrete inputs.  [rfft_abs_pm] takes the
    twiddle factors to be [+1] and [-1]: it is the magnitude spectrum itself
    for transform sizes 1 and 2.  [hanning_tri] is the triangular window,
    which is the Hann window for lengths up to 3.  The others are rational
    approximations. *)

Definition pm_sign (j k : nat) : Q := if Nat.even (j * k) then 1 else -1.

Definition rfft_abs_pm (a : list Q) (n : Z) : list Q :=
  let x := take (Z.to_nat n) (a ++ replicate (Z.to_nat n) 0) in
  map (fun k => Qabs (foldr Qplus 0 (imap (fun j v => pm_sign j k * v) x)))
      (seq 0 (Z.to_nat (n / 2 + 1))).

Definition log1p_pade (x : Q) : Q := 2 * x / (2 + x).

Definition hanning_tri (M : nat) : list Q :=
  match M with
  | 1%nat => [1]
  | _ => map (fun k => 1 - Qabs (2 * inject_Z (Z.of_nat k)
                                  / inject_Z (Z.of_nat M - 1) - 1))
             (seq 0 M)
  end.

Definition cos_taylor (x : Q) : Q := 1 - x * x / 2 + x * x * x * x / 24.
Definition sin_taylor (x : Q) : Q := x - x * x * x / 6.

(** Centre part, of the length of the longer argument, of the full
    convolution. *)
Definition convolve_centre (a v : list Q) : result (list Q) :=
  match a, v with
  | [], _ | _, [] => Err ValueError
  | _, _ =>
      let full := foldr (fun '(i, x) acc =>
                    zip_with Qplus acc
                      (replicate i 0 ++ map (Qmult x) v
                         ++ replicate (length a) 0))
                    (replicate (length a + length v - 1) 0)
                    (imap (fun i x => (i, x)) a) in
      let off := ((Nat.min (length a) (length v) - 1) / 2)%nat in
      Ok (take (Nat.max (length a) (length v)) (drop off full))
  end.

Definition test_kernels : Kernels :=
  mkKernels rfft_abs_pm log1p_pade hanning_tri cos_taylor sin_taylor
            (355 # 113) convolve_centre.

(** ** Vocabulary of the statements *)

(** The four visualizer classes. *)
Inductive variant : Type :=
| VariantBar
| VariantFreqAmplitude
| VariantCircular
| VariantCircleDeform.

Definition visualizer_of (K : Kernels) (v : variant)
  : Visualizer (option (list Q)) :=
  match v with
  | VariantBar => Bar K
  | VariantFreqAmplitude => FreqAmplitude K
  | VariantCircular => Circular K
  | VariantCircleDeform => CircleDeform K
  end.

(** The persistent state is unset, or all of its entries lie in [0, 1]. *)
Definition state_in01 (self : option (list Q)) : Prop :=
  match self with
  | None => True
  | Some s => all_in01 s
  end.

(** [n] smoothing updates against the same new input. *)
Fixpoint smooth_iter (smoothing : Q) (new : list Q) (n : nat)
    (state : list Q) : result (list Q) :=
  match n with
  | O => Ok state
  | S n' =>
      state' ← smooth_update smoothing state new;
      smooth_iter smoothing new n' state'
  end.

(** The product of the relative-mode factors of the frames [indices]. *)
Fixpoint relative_product (feature : Z -> Q) (strength : Q)
    (indices : list Z) : Q :=
  match indices with
  | [] => 1
  | i :: rest =>
      (1 + (feature i - (1 # 2)) * strength)
      * relative_product feature strength rest
  end.

(** The log of a run of [n] frames that raises nowhere. *)
Definition frame_events (with_feature : bool) (i : Z) : list event :=
  [ev_get_audio_data i]
  ++ (if with_feature then [ev_get_value_at_frame i] else [])
  ++ [ev_draw i; ev_update_progress].


Definition has_feature (opt_feature : option (Z -> Q)) : bool :=
  match opt_feature with Some _ => true | None => false end.





(** The frame as [band_spectrum] pads it. *)
Definition padded (frame : list Q) (fft_size : Z) : list Q :=
  if (len frame <? fft_size)%Z
  then np_pad_right frame (fft_size - len frame) else frame.

(** Strictly increasing sample points. *)
Fixpoint increasing_from (x0 : Q) (xs : list Q) : Prop :=
  match xs with
  | [] => True
  | x1 :: rest => x0 < x1 /\ increasing_from x1 rest
  end.


(** ** Concrete inputs *)

(** Two seconds of audio at four samples a second. *)
Definition audio_8 : Audio :=
  mkAudio [1; 1 # 2; 0; -1; 1 # 4; 1 # 3; 0; 0] 4.

(** The processor [__init__] builds for [audio_8] at one frame a second and
    an image of 200 by 100. *)
Definition processor_8 : BaseAudioProcessor :=
  mkProcessor (waveform_mono audio_8) 4 2 100 200 1 (8 # 4) 1.


(** Two seconds of silence. *)
Definition audio_silence : Audio := mkAudio (replicate 8 0) 4.

Definition kwargs_bar : gmap string pyval :=
  list_to_map
    [("curvature", VFloat 0); ("separation", VFloat 5);
     ("max_height", VFloat 200); ("min_height", VFloat 10);
     ("num_bars", VInt 2); ("smoothing", VFloat (1 # 2));
     ("rotation", VFloat 0); ("position_y", VFloat (1 # 2));
     ("reflect", VBool false)]%string.

(** One entry of the state after [n] updates against the constant [c]. *)
Fixpoint smooth_entry (smoothing c : Q) (n : nat) (s : Q) : Q :=
  match n with
  | O => s
  | S n' => smooth_entry smoothing c n' (smoothing * s + (1 - smoothing) * c)
  end.

Fixpoint Qpow (a : Q) (n : nat) : Q :=
  match n with
  | O => 1
  | S n' => a * Qpow a n'
  end.

(** A fifteenth of a second at 44100 samples a second and thirty frames a
    second, as [__init__] builds the processor for an 800 by 600 image: a
    constant signal, and silence. *)
Definition audio_44k : Audio := mkAudio (replicate 2940 (1 # 2)) 44100.
Definition silence_44k : Audio := mkAudio (replicate 2940 0) 44100.

Definition processor_44k : BaseAudioProcessor :=
  mkProcessor (waveform_mono audio_44k) 44100 2 600 800 30
              (2940 # 44100) (1 # 30).

Definition processor_silence : BaseAudioProcessor :=
  mkProcessor (waveform_mono silence_44k) 44100 2 600 800 30
              (2940 # 44100) (1 # 30).

(** Parameters of the frequency-domain variants whose frequency range
    [[20, 100]] lies between the bins 0 Hz and 172.27 Hz of a 256-point
    transform at 44100 Hz. *)
Definition kwargs_narrow : gmap string pyval :=
  list_to_map
    [("max_frequency", VFloat 100); ("min_frequency", VFloat 20);
     ("smoothing", VFloat (1 # 2)); ("fft_size", VInt 256);
     ("position_y", VFloat (1 # 2)); ("reflect", VBool false);
     ("curve_smoothing", VFloat 0); ("rotation", VFloat 0);
     ("num_points", VInt 360); ("radius", VFloat 200);
     ("base_radius", VFloat 200); ("amplitude_scale", VFloat 100);
     ("line_width", VInt 2)]%string.

(** The same with the default range [[20, 8000]]. *)
Definition kwargs_wide : gmap string pyval :=
  <["max_frequency"%string := VFloat 8000]> kwargs_narrow.

(** ** More of the source *)

(** The first sample index of frame [i]:
    [int(frame_index * frame_duration * sample_rate)] for [i >= 0]. *)
Definition frame_start (p : BaseAudioProcessor) (i : Z) : Z :=
  Qfloor (inject_Z i * frame_duration p * inject_Z (sample_rate p)).

(** [np.min]: raises on a zero-size array. *)
Definition np_min (a : list Q) : result Q :=
  match a with
  | [] => Err ValueError
  | x :: rest => Ok (foldl Qmin x rest)
  end.

(** [BaseAudioProcessor._normalize]:
    [(data - data.min()) / (data.max() - data.min())]. *)
Definition _normalize (data : list Q) : result (list Q) :=
  lo ← np_min data;
  hi ← np_max data;
  np_div_scalar (map (fun x => x - lo) data) (hi - lo).

(** The parameter numpy needs as an integer in [get_audio_data]: the
    transform size, or half of it for [Bar]. *)
Definition size_param (v : variant) : string :=
  match v with
  | VariantBar => "num_bars"
  | _ => "fft_size"
  end.

(** A [cv2.line] call of the given thickness. *)
Definition is_line (thickness : Q) (c : draw_call) : Prop :=
  match c with
  | cv2_line _ _ t => t = thickness
  | _ => False
  end.

(** Parameters of the circular variants with four points. *)
Definition kwargs_circle : gmap string pyval :=
  list_to_map
    [("max_frequency", VFloat 8000); ("min_frequency", VFloat 0);
     ("smoothing", VFloat (1 # 2)); ("fft_size", VInt 2);
     ("num_points", VInt 4); ("radius", VFloat 20);
     ("base_radius", VFloat 20); ("amplitude_scale", VFloat 10);
     ("line_width", VInt 2); ("rotation", VFloat 0)]%string.

(** A bar as [Bar.draw] draws it, filled or pasted, lying within the rows
    [0 .. H-1] of the image. *)
Definition bar_in_rows (H : Z) (c : draw_call) : Prop :=
  match c with
  | cv2_rectangle (_, y1) (_, y2) => (0 <= y1 <= y2 /\ y2 <= H - 1)%Z
  | paste_rect y1 y2 _ _ _ => (0 <= y1 <= y2 /\ y2 <= H - 1)%Z
  | _ => False
  end.

(** An open polyline of thickness 1 with at least two points. *)
Definition is_curve (c : draw_call) : Prop :=
  match c with
  | cv2_polylines pts false t => t = 1 /\ (1 < len pts)%Z
  | _ => False
  end.

(** The call [rotate_image] adds for an angle that is not 0. *)
Definition rotation_calls (angle : Q) : list draw_call :=
  if Qeq_bool angle 0 then [] else [cv2_warpAffine angle].

(** * Properties *)

(** ** Booleans and rounding *)

Lemma Qlt_bool_iff (x y : Q) : Qlt_bool x y = true <-> x < y.
Proof.
  unfold Qlt_bool. rewrite negb_true_iff.
  destruct (Qle_bool y x) eqn:E.
  - apply Qle_bool_iff in E. split; [discriminate | intros H; lra].
  - split; [intros _ | reflexivity].
    destruct (Qlt_le_dec x y) as [H | H]; [exact H |].
    apply Qle_bool_iff in H. congruence.
Qed.

Lemma Qeq_bool_false (x y : Q) : Qeq_bool x y = false <-> ~ x == y.
Proof.
  split.
  - intros H E. apply Qeq_bool_iff in E. congruence.
  - intros H. destruct (Qeq_bool x y) eqn:E; [| reflexivity].
    apply Qeq_bool_iff in E. contradiction.
Qed.

Lemma py_int_floor (x : Q) : 0 <= x -> py_int x = Qfloor x.
Proof.
  destruct x as [n d]. unfold py_int, Qfloor, Qle. simpl.
  intros H. apply Z.quot_div_nonneg; lia.
Qed.

Lemma py_int_nonneg (x : Q) : 0 <= x -> (0 <= py_int x)%Z.
Proof.
  intros H. rewrite py_int_floor by exact H.
  change 0%Z with (Qfloor 0). apply Qfloor_resp_le, H.
Qed.

Lemma py_int_mono (x y : Q) : 0 <= x -> x <= y -> (py_int x <= py_int y)%Z.
Proof.
  intros Hx Hxy. rewrite !py_int_floor by lra. apply Qfloor_resp_le, Hxy.
Qed.

(** ** AudioFrameSource *)

Lemma py_slice_nonneg {A} (l : list A) (a b : Z) :
  (0 <= a <= b)%Z ->
  py_slice l a b = take (Z.to_nat (b - a)) (drop (Z.to_nat a) l).
Proof.
  intros [Ha Hab]. unfold py_slice, slice_index.
  assert (Hl : length (drop (Z.to_nat a) l) = (length l - Z.to_nat a)%nat)
    by apply length_drop.
  replace (a <? 0)%Z with false by (symmetry; apply Z.ltb_ge; lia).
  replace (b <? 0)%Z with false by (symmetry; apply Z.ltb_ge; lia).
  destruct (Z.le_gt_cases (Z.of_nat (length l)) a) as [Hge | Hlt].
  - rewrite (drop_ge l (Z.to_nat a)) by lia.
    rewrite (drop_ge l) by lia. by rewrite !take_nil.
  - rewrite (Z.min_l a) by lia.
    destruct (Z.le_gt_cases b (Z.of_nat (length l))) as [Hb | Hb].
    + by rewrite (Z.min_l b) by lia.
    + rewrite (Z.min_r b) by lia.
      rewrite !take_ge; [reflexivity | lia | lia].
Qed.

Lemma Qdiv_nonneg (a b : Q) : 0 <= a -> 0 < b -> 0 <= a / b.
Proof.
  intros Ha Hb. apply Qle_shift_div_l; [exact Hb | lra].
Qed.

Lemma init_frame_duration_nonneg (a : Audio) (nf h w : Z) (fr : Q)
    (p : BaseAudioProcessor) :
  BaseAudioProcessor_init a nf h w fr = Ok p ->
  (0 < audio_sample_rate a)%Z -> (0 <= nf)%Z ->
  audio p = waveform_mono a /\ sample_rate p = audio_sample_rate a /\
  audio_duration p
    = inject_Z (len (waveform_mono a)) / inject_Z (audio_sample_rate a) /\
  (if Qlt_bool 0 fr then frame_duration p = 1 / fr
   else frame_duration p = audio_duration p / inject_Z nf) /\
  0 <= frame_duration p.
Proof.
  intros Hinit Hsr Hnf. unfold BaseAudioProcessor_init, py_div in Hinit.
  assert (Hsr' : 0 < inject_Z (audio_sample_rate a))
    by (rewrite <- (Zlt_Qlt 0); exact Hsr).
  assert (Hdur : 0 <= inject_Z (len (waveform_mono a))
                      / inject_Z (audio_sample_rate a)).
  { apply Qdiv_nonneg; [| exact Hsr'].
    rewrite <- (Zle_Qle 0). unfold len. lia. }
  destruct (Qeq_bool (inject_Z (audio_sample_rate a)) 0) eqn:E0.
  { apply Qeq_bool_iff in E0. lra. }
  simpl in Hinit.
  destruct (Qlt_bool 0 fr) eqn:Efr.
  - apply Qlt_bool_iff in Efr.
    destruct (Qeq_bool fr 0) eqn:E1; simpl in Hinit; [discriminate |].
    injection Hinit as <-. simpl. repeat split; try reflexivity.
    apply Qdiv_nonneg; [lra | exact Efr].
  - destruct (Qeq_bool (inject_Z nf) 0) eqn:E1; simpl in Hinit;
      [discriminate |].
    injection Hinit as <-. simpl. repeat split; try reflexivity.
    apply Qeq_bool_false in E1.
    apply Qdiv_nonneg; [exact Hdur |].
    assert (0 <= inject_Z nf) by (rewrite <- (Zle_Qle 0); exact Hnf).
    lra.
Qed.



(** ** ParameterModulator *)

(** C5.  [modulate_param] returns [base * (1 + (feature - 0.5) * strength)]
    in relative mode and [base * feature * strength] in absolute mode, for
    every base value, feature value and strength.  So a feature of 0.5 leaves
    the base value unchanged in relative mode, whatever the strength, and a
    feature of 0 gives 0 in absolute mode. *)
Theorem modulate_param_formula (name : string) (base : pyval)
    (feature strength : Q) :
  to_num (modulate_param name base feature strength "relative")
    = to_num base * (1 + (feature - (1 # 2)) * strength) /\
  to_num (modulate_param name base feature strength "absolute")
    = to_num base * feature * strength /\
  to_num (modulate_param name base (1 # 2) strength "relative")
    == to_num base /\
  to_num (modulate_param name base 0 strength "absolute") == 0.
Proof.
  unfold modulate_param. simpl. repeat split; ring.
Qed.

(** ** Temporal smoothing *)

Lemma zip_with_scale (a b : Q) (xs ys : list Q) :
  zip_with Qplus (map (Qmult a) xs) (map (Qmult b) ys)
  = zip_with (fun x y => a * x + b * y) xs ys.
Proof.
  revert ys. induction xs as [| x xs IH]; intros [| y ys]; simpl;
    try reflexivity.
  by rewrite IH.
Qed.

Lemma smooth_update_same_length (alpha : Q) (state new : list Q) :
  length state = length new ->
  smooth_update alpha state new
  = Ok (zip_with (fun s d => alpha * s + (1 - alpha) * d) state new).
Proof.
  intros Hlen. unfold smooth_update, np_add, np_zip, np_scale.
  rewrite !length_map, Hlen, Nat.eqb_refl. by rewrite zip_with_scale.
Qed.

Lemma smooth_iter_entries (alpha : Q) (new : list Q) (n : nat) :
  forall state, length state = length new ->
  smooth_iter alpha new n state
  = Ok (zip_with (fun s c => smooth_entry alpha c n s) state new).
Proof.
  induction n as [| n IH]; intros state Hlen; simpl.
  - f_equal. revert new Hlen.
    induction state as [| s ss IHs]; intros [| c cs] Hlen; simpl in *;
      try reflexivity; try discriminate.
    f_equal. apply IHs. lia.
  - rewrite smooth_update_same_length by exact Hlen. simpl.
    rewrite IH by (rewrite length_zip_with; lia).
    f_equal. clear IH. revert new Hlen.
    induction state as [| s ss IHs]; intros [| c cs] Hlen; simpl in *;
      try reflexivity; try discriminate.
    f_equal. apply IHs. lia.
Qed.

Lemma smooth_entry_succ (alpha c : Q) (n : nat) (s : Q) :
  smooth_entry alpha c (S n) s
  == alpha * smooth_entry alpha c n s + (1 - alpha) * c.
Proof.
  revert s. induction n as [| n IH]; intros s.
  - reflexivity.
  - change (smooth_entry alpha c (S (S n)) s)
      with (smooth_entry alpha c (S n) (alpha * s + (1 - alpha) * c)).
    rewrite IH. reflexivity.
Qed.

Lemma smooth_entry_closed (alpha c : Q) (n : nat) (s : Q) :
  smooth_entry alpha c n s - c == Qpow alpha n * (s - c).
Proof.
  induction n as [| n IH].
  - simpl. ring.
  - rewrite smooth_entry_succ. simpl Qpow.
    transitivity (alpha * (smooth_entry alpha c n s - c)); [ring |].
    rewrite IH. ring.
Qed.

Lemma Qpow_bounds (a : Q) (n : nat) : 0 < a < 1 -> 0 < Qpow a n <= 1.
Proof.
  intros Ha. induction n as [| n IH]; simpl; [lra |]. nra.
Qed.

(** Bernoulli's inequality, in the form used below. *)
Lemma Qpow_decay (a : Q) (n : nat) :
  0 < a < 1 ->
  Qpow a n * (a + inject_Z (Z.of_nat n) * (1 - a)) <= a.
Proof.
  intros Ha. induction n as [| n IH].
  - change (Qpow a 0) with 1. change (inject_Z (Z.of_nat 0)) with 0. lra.
  - pose proof (Qpow_bounds a n Ha) as Hb.
    assert (Hn : inject_Z (Z.of_nat (S n)) == inject_Z (Z.of_nat n) + 1).
    { rewrite Nat2Z.inj_succ. unfold Z.succ. rewrite inject_Z_plus.
      reflexivity. }
    rewrite Hn. simpl Qpow.
    assert (Hn0 : 0 <= inject_Z (Z.of_nat n))
      by (rewrite <- (Zle_Qle 0); lia).
    set (P := Qpow a n) in *. set (N := inject_Z (Z.of_nat n)) in *.
    assert (H1 : a * (P * (a + N * (1 - a))) <= a * a).
    { apply Qmult_le_l; lra. }
    assert (H2 : a * (1 - a) * P <= a * (1 - a) * 1).
    { apply Qmult_le_l; [nra | lra]. }
    lra.
Qed.

Lemma Qpow_vanishes (a d eps : Q) :
  0 < a < 1 -> 0 <= d -> 0 < eps ->
  exists N : nat, forall n, (N <= n)%nat -> Qpow a n * d < eps.
Proof.
  intros Ha Hd He.
  set (bound := a * d / ((1 - a) * eps)).
  exists (Z.to_nat (Qceiling bound) + 1)%nat. intros n Hn.
  assert (Hpos : 0 < (1 - a) * eps) by nra.
  assert (Hbound0 : 0 <= bound).
  { unfold bound. apply Qdiv_nonneg; [nra | exact Hpos]. }
  assert (Hceil : bound < inject_Z (Z.of_nat n)).
  { apply Qle_lt_trans with (inject_Z (Qceiling bound));
      [apply Qle_ceiling |].
    rewrite <- Zlt_Qlt.
    assert (0 <= Qceiling bound)%Z.
    { change 0%Z with (Qceiling 0). apply Qceiling_resp_le, Hbound0. }
    lia. }
  assert (Hkey : a * d < inject_Z (Z.of_nat n) * ((1 - a) * eps)).
  { assert (Heq : a * d == bound * ((1 - a) * eps)).
    { unfold bound. field. split; lra. }
    rewrite Heq. apply Qmult_lt_compat_r; [exact Hpos | exact Hceil]. }
  pose proof (Qpow_decay a n Ha) as Hdec.
  pose proof (Qpow_bounds a n Ha) as Hb.
  assert (Hn0 : 0 <= inject_Z (Z.of_nat n)) by (rewrite <- (Zle_Qle 0); lia).
  set (w := a + inject_Z (Z.of_nat n) * (1 - a)) in *.
  assert (Hw : 0 < w) by (unfold w; nra).
  assert (H1 : Qpow a n * d * w <= a * d) by nra.
  assert (H2 : a * d < eps * w) by (unfold w; nra).
  assert (H3 : Qpow a n * d * w < eps * w) by lra.
  nra.
Qed.

Lemma Forall2_zip_with_r (f : Q -> Q -> Q) (P : Q -> Q -> Prop)
    (l k : list Q) :
  length l = length k -> (forall x y, P (f x y) y) ->
  Forall2 P (zip_with f l k) k.
Proof.
  intros Hlen HP. revert k Hlen.
  induction l as [| x l IH]; intros [| y k] Hlen; simpl in *;
    try discriminate; constructor; [apply HP | apply IH; lia].
Qed.

Lemma Forall2_zip_with_l (f : Q -> Q -> Q) (P : Q -> Q -> Prop)
    (l k : list Q) :
  length l = length k -> (forall x y, P (f x y) x) ->
  Forall2 P (zip_with f l k) l.
Proof.
  intros Hlen HP. revert k Hlen.
  induction l as [| x l IH]; intros [| y k] Hlen; simpl in *;
    try discriminate; constructor; [apply HP | apply IH; lia].
Qed.

Lemma smooth_entry_monotone (alpha c : Q) (n : nat) (s : Q) :
  0 < alpha < 1 ->
  let x := smooth_entry alpha c n s in
  let y := smooth_entry alpha c (S n) s in
  (x <= c -> x <= y <= c) /\ (c <= x -> c <= y <= x).
Proof.
  intros Ha x y.
  assert (Hy : y == alpha * x + (1 - alpha) * c)
    by apply smooth_entry_succ.
  split; intros Hx; rewrite Hy; nra.
Qed.

Lemma smooth_entries_converge (alpha eps : Q) (state new : list Q) :
  0 < alpha < 1 -> 0 < eps -> length state = length new ->
  exists N : nat, forall n, (N <= n)%nat ->
    Forall2 (fun x c => Qabs (x - c) < eps)
      (zip_with (fun s c => smooth_entry alpha c n s) state new) new.
Proof.
  intros Ha He. revert new.
  induction state as [| s ss IH]; intros [| c cs] Hlen; simpl in Hlen;
    try discriminate; cbn [zip_with].
  - exists 0%nat. intros n _. constructor.
  - destruct (IH cs) as [N1 HN1]; [lia |].
    destruct (Qpow_vanishes alpha (Qabs (s - c)) eps Ha (Qabs_nonneg _) He)
      as [N2 HN2].
    exists (Nat.max N1 N2). intros n Hn. constructor.
    + cbv beta. rewrite smooth_entry_closed, Qabs_Qmult.
      rewrite (Qabs_pos (Qpow alpha n))
        by (pose proof (Qpow_bounds alpha n Ha); lra).
      apply HN2. lia.
    + apply HN1. lia.
Qed.

(** C7.  With state and new input of one length, the smoothing update is
    [alpha * state + (1 - alpha) * new] entry by entry.  With [alpha = 0] the
    updated state is the new input; with [alpha = 1] it is the previous
    state.  With [0 < alpha < 1] and the same new input at every frame, each
    entry moves monotonically toward the entry of the input (it never
    overshoots it and never moves away from it), and the state converges to
    the input: every entry is eventually within any [eps > 0] of it. *)
Theorem smoothing_law (alpha : Q) (state new : list Q) :
  length state = length new ->
  (exists state',
      smooth_update alpha state new = Ok state' /\
      state' = zip_with (fun s d => alpha * s + (1 - alpha) * d) state new /\
      (alpha == 0 -> Forall2 Qeq state' new) /\
      (alpha == 1 -> Forall2 Qeq state' state)) /\
  (0 < alpha < 1 ->
   (forall n : nat, exists sn sn',
       smooth_iter alpha new n state = Ok sn /\
       smooth_iter alpha new (S n) state = Ok sn' /\
       forall (k : nat) (x y c : Q),
         sn !! k = Some x -> sn' !! k = Some y -> new !! k = Some c ->
         (x <= c -> x <= y <= c) /\ (c <= x -> c <= y <= x)) /\
   (forall eps, 0 < eps ->
      exists N : nat, forall n, (N <= n)%nat ->
        exists sn, smooth_iter alpha new n state = Ok sn /\
                   Forall2 (fun x c => Qabs (x - c) < eps) sn new)).
Proof.
  intros Hlen. split.
  - eexists. split; [apply smooth_update_same_length, Hlen |].
    split; [reflexivity |]. split; intros Ha.
    + apply Forall2_zip_with_r; [exact Hlen |]. intros x y.
      rewrite Ha. ring.
    + apply Forall2_zip_with_l; [exact Hlen |]. intros x y.
      rewrite Ha. ring.
  - intros Ha. split.
    + intros n. eexists. eexists.
      split; [apply smooth_iter_entries, Hlen |].
      split; [apply smooth_iter_entries, Hlen |].
      intros k x y c Hx Hy Hc.
      apply lookup_zip_with_Some in Hx as (s & c1 & -> & Hs & Hc1).
      apply lookup_zip_with_Some in Hy as (s' & c2 & -> & Hs' & Hc2).
      assert (s' = s) by congruence. assert (c1 = c) by congruence.
      assert (c2 = c) by congruence. subst.
      apply smooth_entry_monotone, Ha.
    + intros eps He.
      destruct (smooth_entries_converge alpha eps state new Ha He Hlen)
        as [N HN].
      exists N. intros n Hn. eexists.
      split; [apply smooth_iter_entries, Hlen |]. apply HN, Hn.
Qed.

Lemma smoothing_law_witness :
  exists state',
    smooth_update (1 # 2) [0; 1] [1; 1] = Ok state' /\
    state' = [(1 # 2) * 0 + (1 - (1 # 2)) * 1; (1 # 2) * 1 + (1 - (1 # 2)) * 1].
Proof.
  destruct (smoothing_law (1 # 2) [0; 1] [1; 1] eq_refl)
    as [(state' & Hup & Heq & _) _].
  exists state'. split; [exact Hup | exact Heq].
Defined.

(** ** The frame loop *)

(** Case analysis on the first call that may raise in [H], a hypothesis that
    a monadic computation returned. *)
Ltac inv_bind H :=
  unfold mbind, result_bind, mret, result_ret in H;
  repeat match type of H with
    | context [match ?x with Ok _ => _ | Err _ => _ end] =>
        let E := fresh "E" in
        destruct x eqn:E; try discriminate H
    end.

Section FrameLoop.

Context {S : Type} `{V : Visualizer S}.

Lemma modulate_kwargs_unchanged (params : list string)
    (kwargs : gmap string pyval) (fv s : Q) (fp fm : string) :
  fp ∉ params \/ kwargs !! fp = None ->
  foldl (fun kwargs param_name =>
           match kwargs !! param_name with
           | Some v =>
               if bool_decide (param_name = fp)
               then <[param_name := modulate_param param_name v fv s fm]>
                      kwargs
               else kwargs
           | None => kwargs
           end) kwargs params = kwargs.
Proof.
  intros H. induction params as [| a params IH]; simpl; [reflexivity |].
  assert (Hstep :
    match kwargs !! a with
    | Some v => if bool_decide (a = fp)
                then <[a := modulate_param a v fv s fm]> kwargs else kwargs
    | None => kwargs
    end = kwargs).
  { destruct (kwargs !! a) eqn:Ea; [| reflexivity].
    case_bool_decide as Heq; [| reflexivity]. subst a.
    destruct H as [H | H]; [| congruence].
    exfalso. apply H. left. }
  rewrite Hstep. apply IH.
  destruct H as [H | H]; [left | right; exact H].
  intros Hin. apply H. by right.
Qed.

Lemma modulate_kwargs_overwrites (kwargs : gmap string pyval) (fv s : Q)
    (fp fm : string) (v : pyval) :
  NoDup get_modifiable_params -> fp ∈ get_modifiable_params ->
  kwargs !! fp = Some v ->
  modulate_kwargs kwargs fv s fp fm
  = <[fp := modulate_param fp v fv s fm]> kwargs.
Proof.
  unfold modulate_kwargs. generalize get_modifiable_params as params.
  intros params Hnd Hin Hv. revert kwargs Hv.
  induction params as [| a params IH]; intros kwargs Hv.
  - by apply not_elem_of_nil in Hin.
  - apply NoDup_cons in Hnd as [Ha Hnd]. simpl.
    destruct (decide (a = fp)) as [-> | Hne].
    + rewrite Hv. rewrite bool_decide_eq_true_2 by reflexivity.
      apply modulate_kwargs_unchanged. by left.
    + assert (Hstep :
        match kwargs !! a with
        | Some v0 => if bool_decide (a = fp)
                     then <[a := modulate_param a v0 fv s fm]> kwargs
                     else kwargs
        | None => kwargs
        end = kwargs).
      { destruct (kwargs !! a); [| reflexivity].
        by rewrite bool_decide_eq_false_2. }
      rewrite Hstep. apply IH; [exact Hnd | | exact Hv].
      apply elem_of_cons in Hin as [Hin | Hin]; [congruence | exact Hin].
Qed.

Lemma frame_body_ok (p : BaseAudioProcessor) (s : Q) (fp fm : string)
    (opt_feature : option (Z -> Q)) (st st' : loop_state S) (i : Z)
    (log log' : list event) :
  frame_body p s fp fm opt_feature st i log = (log', Ok st') ->
  log' = log ++ frame_events (has_feature opt_feature) i /\
  exists self1 fv image,
    get_audio_data (ls_self st) p i (ls_kwargs st) = Ok (self1, fv) /\
    ls_kwargs st'
      = match opt_feature with
        | Some f => modulate_kwargs (ls_kwargs st) (f i) s fp fm
        | None => ls_kwargs st
        end /\
    draw self1 p (ls_kwargs st') = Ok (ls_self st', image) /\
    ls_result st' = ls_result st ++ [image].
Proof.
  unfold frame_body. intros H.
  destruct (get_audio_data (ls_self st) p i (ls_kwargs st))
    as [[self1 fv] |] eqn:Eg; [| by inversion H].
  destruct opt_feature as [f |]; simpl in H |- *.
  - destruct (draw self1 p _) as [[self2 image] |] eqn:Ed;
      inversion H; subst; clear H. simpl.
    split; [by rewrite <- !app_assoc |].
    exists self1, fv, image. by rewrite Ed.
  - destruct (draw self1 p _) as [[self2 image] |] eqn:Ed;
      inversion H; subst; clear H. simpl.
    split; [by rewrite <- !app_assoc |].
    exists self1, fv, image. by rewrite Ed.
Qed.


End FrameLoop.

(** ** The shape of a drawn image *)

Lemma np_zeros_image_shape (h w : Z) (im : Image) :
  np_zeros_image h w = Ok im -> img_shape im = [h; w; 3%Z].
Proof.
  unfold np_zeros_image. destruct (_ || _); [discriminate |].
  by intros [= <-].
Qed.

Lemma for_enumerate_shape {A} (body : Image -> Z -> A -> result Image)
    (values : list A) :
  (forall im i v im', body im i v = Ok im' -> img_shape im' = img_shape im) ->
  forall i im im',
    for_enumerate body values i im = Ok im' -> img_shape im' = img_shape im.
Proof.
  intros Hbody. induction values as [| v values IH]; intros i im im' H;
    simpl in H.
  - by injection H as <-.
  - inv_bind H. apply IH in H. apply Hbody in E. congruence.
Qed.

Lemma for_enumerate_calls {A} (body : Image -> Z -> A -> result Image)
    (values : list A) :
  (forall im i v im', body im i v = Ok im' ->
     length (img_calls im') = Datatypes.S (length (img_calls im))) ->
  forall i im im',
    for_enumerate body values i im = Ok im' ->
    length (img_calls im') = (length (img_calls im) + length values)%nat.
Proof.
  intros Hbody. induction values as [| v values IH]; intros i im im' H;
    simpl in H.
  - injection H as <-. simpl. lia.
  - inv_bind H. apply IH in H. apply Hbody in E. simpl. lia.
Qed.

Lemma Bar_draw_bar_call (curvature : Z) (sep maxh minh bw : Q) (r : bool)
    (by_ sh sw : Z) (im : Image) (i : Z) (v : Q) (im' : Image) :
  Bar_draw_bar curvature sep maxh minh bw r by_ sh sw im i v = Ok im' ->
  exists c, im' = image_draw im c.
Proof.
  unfold Bar_draw_bar. intros H.
  repeat match type of H with
    | context [let '(_, _) := ?x in _] => destruct x
    | context [if ?b then _ else _] => destruct b
    end; try discriminate H; injection H as <-; eauto.
Qed.

Lemma np_zeros_image_calls (h w : Z) (im : Image) :
  np_zeros_image h w = Ok im -> img_calls im = [].
Proof.
  unfold np_zeros_image. destruct (_ || _); [discriminate |].
  by intros [= <-].
Qed.

Lemma Bar_draw_spec (self self' : option (list Q))
    (p : BaseAudioProcessor) (kwargs : gmap string pyval) (im : Image) :
  Bar_draw self p kwargs = Ok (self', im) ->
  self' = self /\
  img_shape im = [height p; width p; 3%Z] /\
  exists bars rotation,
    self = Some bars /\
    kw_num kwargs "rotation" = Ok rotation /\
    length (img_calls im)
    = (length bars
       + if Qeq_bool (py_mod rotation 360) 0 then 0 else 1)%nat.
Proof.
  unfold Bar_draw. intros H. inv_bind H.
  destruct self as [bars |]; [| discriminate].
  match goal with
  | Ez : np_zeros_image _ _ = Ok ?im0,
    Eb : Ok bars = Ok ?b,
    Ef : for_enumerate _ ?b _ ?im0 = Ok ?im1 |- _ =>
      injection Eb as <-;
      pose proof (np_zeros_image_shape _ _ _ Ez) as Hshape0;
      pose proof (np_zeros_image_calls _ _ _ Ez) as Hcalls0;
      assert (Hshape : img_shape im1 = img_shape im0);
      [ eapply for_enumerate_shape; [| exact Ef];
        intros ? ? ? ? Hb; apply Bar_draw_bar_call in Hb as [c ->];
        reflexivity |];
      assert (Hcalls : length (img_calls im1)
                       = (length (img_calls im0) + length bars)%nat);
      [ eapply for_enumerate_calls; [| exact Ef];
        intros ? ? ? ? Hb; apply Bar_draw_bar_call in Hb as [c ->];
        simpl; rewrite length_app; simpl; lia |]
  end.
  rewrite Hcalls0 in Hcalls. simpl in Hcalls.
  injection H as <- <-.
  split; [reflexivity |]. split.
  - destruct (negb _); simpl; congruence.
  - eexists _, _. split; [reflexivity |]. split; [reflexivity |].
    destruct (Qeq_bool _ 0); simpl.
    + lia.
    + rewrite length_app. simpl. lia.
Qed.

Lemma draw_curve_shape (im : Image) (points : list (Z * Z)) :
  img_shape (draw_curve im points) = img_shape im.
Proof. unfold draw_curve. by destruct (_ <? _)%Z. Qed.

Lemma FreqAmplitude_draw_spec (K : Kernels) (self self' : option (list Q))
    (p : BaseAudioProcessor) (kwargs : gmap string pyval) (im : Image) :
  FreqAmplitude_draw K self p kwargs = Ok (self', im) ->
  self' = self /\ img_shape im = [height p; width p; 3%Z].
Proof.
  unfold FreqAmplitude_draw. intros H. inv_bind H.
  injection H as <- <-. split; [reflexivity |].
  match goal with
  | Ez : np_zeros_image _ _ = Ok _ |- _ =>
      apply np_zeros_image_shape in Ez; rewrite <- Ez
  end.
  destruct (negb _); destruct (kw_truthy _ _); simpl;
    by rewrite ?draw_curve_shape.
Qed.

Lemma np_linspace_length (start stop : Q) (num : Z) (e : bool)
    (xs : list Q) :
  np_linspace start stop num e = Ok xs ->
  (0 <= num)%Z /\ length xs = Z.to_nat num.
Proof.
  unfold np_linspace. destruct (num <? 0)%Z eqn:E; [discriminate |].
  intros [= <-]. apply Z.ltb_ge in E.
  by rewrite length_map, length_seq.
Qed.

Lemma np_interp_length (x xp fp ys : list Q) :
  np_interp x xp fp = Ok ys -> length ys = length x.
Proof.
  unfold np_interp. destruct (negb _); [discriminate |].
  destruct (zip xp fp) as [| [x0 y0] rest]; [discriminate |].
  intros [= <-]. by rewrite length_map.
Qed.

(** After the guard of [draw] the state has as many entries as there are
    points. *)
Lemma match_points_length (self : option (list Q)) (num_points : Z)
    (spectrum : list Q) :
  match_points self num_points = Ok spectrum -> len spectrum = num_points.
Proof.
  unfold match_points. intros H.
  destruct self as [s |]; simpl in H; [| discriminate].
  destruct (negb _) eqn:Eneq.
  - inv_bind H. apply np_interp_length in H.
    match goal with
    | El : np_linspace 0 1 num_points true = Ok _ |- _ =>
        apply np_linspace_length in El as [Hn Hl]
    end.
    unfold len. lia.
  - injection H as <-. apply negb_false_iff, Z.eqb_eq in Eneq. exact Eneq.
Qed.

Lemma foldl_shape {A} (f : Image -> A -> Image) (l : list A) (im : Image) :
  (forall im a, img_shape (f im a) = img_shape im) ->
  img_shape (foldl f im l) = img_shape im.
Proof.
  intros Hf. revert im.
  induction l as [| a l IH]; intros im; simpl; [reflexivity |].
  by rewrite IH, Hf.
Qed.

Lemma Circular_draw_spec (K : Kernels) (self self' : option (list Q))
    (p : BaseAudioProcessor) (kwargs : gmap string pyval) (im : Image) :
  Circular_draw K self p kwargs = Ok (self', im) ->
  img_shape im = [height p; width p; 3%Z] /\
  exists num_points spectrum,
    kw_round kwargs "num_points" = Ok num_points /\
    match_points self num_points = Ok spectrum /\
    self' = Some spectrum /\ len spectrum = num_points.
Proof.
  unfold Circular_draw. intros H. inv_bind H.
  injection H as <- <-.
  match goal with
  | Ez : np_zeros_image _ _ = Ok _ |- _ =>
      apply np_zeros_image_shape in Ez; rewrite <- Ez
  end.
  split.
  - apply foldl_shape. by intros im0 [angle amplitude].
  - eexists _, _. split; [reflexivity |]. split; [eassumption |].
    split; [reflexivity |]. eapply match_points_length. eassumption.
Qed.

Lemma CircleDeform_draw_spec (K : Kernels) (self self' : option (list Q))
    (p : BaseAudioProcessor) (kwargs : gmap string pyval) (im : Image) :
  CircleDeform_draw K self p kwargs = Ok (self', im) ->
  img_shape im = [height p; width p; 3%Z] /\
  exists num_points spectrum,
    kw_round kwargs "num_points" = Ok num_points /\
    match_points self num_points = Ok spectrum /\
    self' = Some spectrum /\ len spectrum = num_points.
Proof.
  unfold CircleDeform_draw. intros H. inv_bind H.
  injection H as <- <-.
  match goal with
  | Ez : np_zeros_image _ _ = Ok _ |- _ =>
      apply np_zeros_image_shape in Ez; rewrite <- Ez
  end.
  split.
  - by destruct (2 <? _)%Z.
  - eexists _, _. split; [reflexivity |]. split; [eassumption |].
    split; [reflexivity |]. eapply match_points_length. eassumption.
Qed.


(** ** The sequence driver *)





Section Driver.

Context {S : Type} `{V : Visualizer S}.



Hypothesis draw_contract :
  forall self p kwargs self' im,
    draw self p kwargs = Ok (self', im) ->
    img_shape im = [height p; width p; 3%Z].


Lemma apply_effect_steps (self : S) (audio : Audio) (frame_rate : Q)
    (W H : Z) (s : Q) (fp fm : string) (opt_feature : option (Z -> Q))
    (kwargs : gmap string pyval) :
  (0 < audio_sample_rate audio)%Z -> 0 < frame_rate ->
  let n := Qfloor (inject_Z (len (waveform_mono audio))
                   / inject_Z (audio_sample_rate audio) * frame_rate) in
  (0 <= n)%Z /\
  exists p,
    BaseAudioProcessor_init audio n H W frame_rate = Ok p /\
    height p = H /\ width p = W /\
    apply_effect self audio frame_rate W H s fp fm opt_feature kwargs
    = match for_frames (frame_body p s fp fm opt_feature) (py_range n)
              (mkLoop self kwargs []) [ev_start_progress n] with
      | (log, Err e) => (log, Err e)
      | (log, Ok st) =>
          match np_stack (ls_result st) with
          | Err e => (log ++ [ev_end_progress], Err e)
          | Ok result_np =>
              (log ++ [ev_end_progress], Ok (ls_self st, result_np))
          end
      end.
Proof.
  intros Hsr Hfr n.
  assert (Hsr' : 0 < inject_Z (audio_sample_rate audio))
    by (rewrite <- (Zlt_Qlt 0); exact Hsr).
  assert (Hdur : 0 <= inject_Z (len (waveform_mono audio))
                      / inject_Z (audio_sample_rate audio)).
  { apply Qdiv_nonneg; [| exact Hsr'].
    rewrite <- (Zle_Qle 0). unfold len. lia. }
  assert (Hprod : 0 <= inject_Z (len (waveform_mono audio))
                       / inject_Z (audio_sample_rate audio) * frame_rate).
  { apply Qmult_le_0_compat; lra. }
  split.
  { change 0%Z with (Qfloor 0). apply Qfloor_resp_le, Hprod. }
  unfold apply_effect, BaseAudioProcessor_init, py_div.
  destruct (Qeq_bool (inject_Z (audio_sample_rate audio)) 0) eqn:E0.
  { apply Qeq_bool_iff in E0. lra. }
  rewrite py_int_floor by exact Hprod. fold n.
  unfold mbind, result_bind, mret, result_ret.
  replace (Qlt_bool 0 frame_rate) with true
    by (symmetry; apply Qlt_bool_iff, Hfr).
  destruct (Qeq_bool frame_rate 0) eqn:E1.
  { apply Qeq_bool_iff in E1. lra. }
  eexists. split; [reflexivity |]. split; [reflexivity |].
  split; [reflexivity |].
  destruct (for_frames _ _ _ _) as [log [st |]]; reflexivity.
Qed.



(** C9.  If [floor(audio_duration * frame_rate)] is 0, [apply_effect] does
    not return an empty image sequence: the progress bar is started for 0
    steps and ended, no frame is extracted or drawn, and [np.stack] raises
    [ValueError] on the empty list of images.  (The sample rate and the
    frame rate are positive, as the host's input ranges make them.) *)
Theorem apply_effect_zero_frames (self : S) (audio : Audio) (frame_rate : Q)
    (W H : Z) (s : Q) (fp fm : string) (opt_feature : option (Z -> Q))
    (kwargs : gmap string pyval) :
  (0 < audio_sample_rate audio)%Z -> 0 < frame_rate ->
  Qfloor (inject_Z (len (waveform_mono audio))
          / inject_Z (audio_sample_rate audio) * frame_rate) = 0%Z ->
  apply_effect self audio frame_rate W H s fp fm opt_feature kwargs
  = ([ev_start_progress 0; ev_end_progress], Err ValueError).
Proof.
  intros Hsr Hfr Hn.
  destruct (apply_effect_steps self audio frame_rate W H s fp fm opt_feature
              kwargs Hsr Hfr) as (_ & p & _ & _ & _ & Heq).
  rewrite Hn in Heq. exact Heq.
Qed.

End Driver.

Lemma apply_effect_zero_frames_witness :
  apply_effect (V := Circular test_kernels) None (mkAudio [1; 0; 1] 44100)
    30 800 600 1 "radius" "relative" None ∅
  = ([ev_start_progress 0; ev_end_progress], Err ValueError).
Proof.
  apply (apply_effect_zero_frames (V := Circular test_kernels));
    reflexivity.
Defined.




(** ** Modulation across frames *)

Lemma modifiable_params_NoDup (K : Kernels) (v : variant) :
  NoDup (get_modifiable_params (Visualizer := visualizer_of K v)).
Proof.
  destruct v; simpl; apply NoDup_ListNoDup;
    repeat (constructor; [simpl; intuition discriminate |]); constructor.
Qed.

Section Compounding.

Context {S : Type} `{V : Visualizer S}.
Hypothesis params_NoDup : NoDup get_modifiable_params.

Variables (p : BaseAudioProcessor) (strength : Q) (fp : string)
          (f : Z -> Q).
Hypothesis fp_modifiable : fp ∈ get_modifiable_params.

Lemma frame_body_overwrites (fm : string) (st st' : loop_state S) (i : Z)
    (log log' : list event) (v : pyval) :
  ls_kwargs st !! fp = Some v ->
  frame_body p strength fp fm (Some f) st i log = (log', Ok st') ->
  ls_kwargs st'
  = <[fp := modulate_param fp v (f i) strength fm]> (ls_kwargs st).
Proof.
  intros Hv H.
  apply frame_body_ok in H as (_ & _ & _ & _ & _ & -> & _).
  by apply modulate_kwargs_overwrites.
Qed.

Lemma for_frames_compounds (indices : list Z) :
  forall (st st' : loop_state S) (log log' : list event) (v : pyval),
  ls_kwargs st !! fp = Some v ->
  for_frames (frame_body p strength fp "relative" (Some f)) indices st log
    = (log', Ok st') ->
  exists v', ls_kwargs st' !! fp = Some v' /\
             to_num v' == to_num v * relative_product f strength indices.
Proof.
  induction indices as [| i rest IH]; intros st st' log log' v Hv H;
    simpl in H.
  - injection H as <- <-. exists v. split; [exact Hv |]. simpl. ring.
  - destruct (frame_body p strength fp "relative" (Some f) st i log)
      as [log1 [st1 |]] eqn:Eb; [| by inversion H].
    pose proof (frame_body_overwrites _ _ _ _ _ _ _ Hv Eb) as Hkw.
    assert (Hv1 : ls_kwargs st1 !! fp
                  = Some (modulate_param fp v (f i) strength "relative"))
      by (rewrite Hkw; apply lookup_insert_eq).
    destruct (IH _ _ _ _ _ Hv1 H) as (v' & Hv' & Hnum).
    exists v'. split; [exact Hv' |]. rewrite Hnum.
    unfold modulate_param. simpl. ring.
Qed.

End Compounding.

(** C8.  With a feature source, each frame of [apply_effect] overwrites the
    entry of the modulated parameter in [kwargs] with the result of
    [modulate_param] on the entry's current value; the next frame modulates
    that result, not the configured value.  In relative mode the entry after
    the frames [indices] is the configured value times the product of the
    factors [1 + (feature(i) - 0.5) * strength] of these frames. *)
Theorem modulation_compounds (K : Kernels) (v : variant)
    (p : BaseAudioProcessor) (strength : Q) (feature_param : string)
    (f : Z -> Q) :
  feature_param ∈ get_modifiable_params (Visualizer := visualizer_of K v) ->
  (forall feature_mode st st' i log log' base,
     ls_kwargs st !! feature_param = Some base ->
     frame_body (V := visualizer_of K v) p strength feature_param
       feature_mode (Some f) st i log = (log', Ok st') ->
     ls_kwargs st'
     = <[feature_param :=
           modulate_param feature_param base (f i) strength feature_mode]>
         (ls_kwargs st)) /\
  (forall indices st st' log log' base,
     ls_kwargs st !! feature_param = Some base ->
     for_frames
       (frame_body (V := visualizer_of K v) p strength feature_param
          "relative" (Some f)) indices st log = (log', Ok st') ->
     exists value,
       ls_kwargs st' !! feature_param = Some value /\
       to_num value
       == to_num base * relative_product f strength indices).
Proof.
  intros Hin. split.
  - intros fm st st' i log log' base.
    apply (frame_body_overwrites (V := visualizer_of K v)
             (modifiable_params_NoDup K v) p strength feature_param f Hin).
  - intros indices st st' log log' base.
    apply (for_frames_compounds (V := visualizer_of K v)
             (modifiable_params_NoDup K v) p strength feature_param f Hin).
Qed.

Lemma modulation_compounds_witness :
  exists log' st' value,
    for_frames
      (frame_body (V := visualizer_of test_kernels VariantBar) processor_8 1
         "max_height" "relative" (Some (fun _ => 1)))
      [0; 1]%Z (mkLoop None kwargs_bar []) [] = (log', Ok st') /\
    ls_kwargs st' !! "max_height"%string = Some value /\
    to_num value == 450.
Proof.
  destruct (for_frames
              (frame_body (V := visualizer_of test_kernels VariantBar)
                 processor_8 1 "max_height" "relative" (Some (fun _ => 1)))
              [0; 1]%Z (mkLoop None kwargs_bar []) []) as [log' r] eqn:E.
  assert (Hok : is_ok r = true).
  { apply (f_equal snd) in E. simpl in E. rewrite <- E.
    vm_compute. reflexivity. }
  destruct r as [st' |]; [| discriminate].
  destruct (modulation_compounds test_kernels VariantBar processor_8 1
              "max_height" (fun _ => 1)) as [_ H].
  { vm_compute. repeat (try (left; reflexivity); right). }
  pose proof (fun Hb => H _ _ _ _ _ (VFloat 200) Hb E) as H'.
  destruct H' as (value & Hv & Hnum); [vm_compute; reflexivity |].
  exists log', st', value. split; [reflexivity |]. split; [exact Hv |].
  rewrite Hnum. reflexivity.
Defined.

(** ** Arrays *)

Lemma Qmax_spec (a b : Q) :
  a <= Qmax a b /\ b <= Qmax a b /\ (Qmax a b = a \/ Qmax a b = b).
Proof.
  unfold Qmax. destruct (Qle_bool a b) eqn:E.
  - apply Qle_bool_iff in E. repeat split; [exact E | lra | by right].
  - assert (~ a <= b) by (intros H; apply Qle_bool_iff in H; congruence).
    repeat split; [lra | lra | by left].
Qed.

Lemma foldl_Qmax_spec (rest : list Q) :
  forall a, a <= foldl Qmax a rest /\
            Forall (fun x => x <= foldl Qmax a rest) rest /\
            (foldl Qmax a rest = a \/ In (foldl Qmax a rest) rest).
Proof.
  induction rest as [| b rest IH]; intros a; simpl.
  - split; [lra |]. split; [constructor | by left].
  - destruct (IH (Qmax a b)) as (H1 & H2 & H3).
    destruct (Qmax_spec a b) as (Ha & Hb & Hab).
    split; [lra |]. split; [constructor; [lra | exact H2] |].
    destruct H3 as [H3 | H3]; [| by right; right].
    rewrite H3. destruct Hab as [-> | ->]; [by left | by right; left].
Qed.

(** [np.max] returns an entry of the array that bounds every entry. *)
Lemma np_max_spec (a : list Q) (m : Q) :
  np_max a = Ok m -> Forall (fun x => x <= m) a /\ In m a.
Proof.
  destruct a as [| x rest]; [discriminate |]. simpl. intros [= <-].
  destruct (foldl_Qmax_spec rest x) as (H1 & H2 & H3).
  split; [by constructor |]. destruct H3 as [-> | H3]; [by left | by right].
Qed.

Lemma np_zeros_spec (n : Z) (a : list Q) :
  np_zeros n = Ok a ->
  (0 <= n)%Z /\ a = replicate (Z.to_nat n) 0.
Proof.
  unfold np_zeros. destruct (n <? 0)%Z eqn:E; [discriminate |].
  intros [= <-]. apply Z.ltb_ge in E. done.
Qed.

Lemma replicate_all_zero (n : nat) : all_zero (replicate n 0).
Proof. apply Forall_replicate. reflexivity. Qed.

Lemma all_zero_in01 (a : list Q) : all_zero a -> all_in01 a.
Proof.
  unfold all_zero, all_in01. intros H. eapply Forall_impl; [exact H |].
  intros x Hx. simpl in Hx. lra.
Qed.

Lemma np_take_spec (a : list Q) (indices : list nat) :
  Forall (fun i => (i < length a)%nat) indices ->
  exists xs, np_take a indices = Ok xs /\
             length xs = length indices /\
             Forall (fun x => In x a) xs.
Proof.
  induction indices as [| i rest IH]; intros Hall; simpl.
  - exists []. done.
  - apply Forall_cons in Hall as [Hi Hrest].
    destruct (IH Hrest) as (xs & -> & Hlen & Hin).
    destruct (a !! i) as [x |] eqn:Ex.
    + exists (x :: xs). simpl. split; [reflexivity |].
      split; [by rewrite Hlen |]. constructor; [| exact Hin].
      apply list_elem_of_In. eapply list_elem_of_lookup_2, Ex.
    + apply lookup_ge_None in Ex. lia.
Qed.

Lemma np_take_ok (a : list Q) (indices : list nat) (xs : list Q) :
  np_take a indices = Ok xs ->
  length xs = length indices /\ Forall (fun x => In x a) xs.
Proof.
  revert xs. induction indices as [| i rest IH]; intros xs H; simpl in H.
  - by injection H as <-.
  - destruct (a !! i) as [x |] eqn:Ex; [| discriminate].
    inv_bind H. injection H as <-.
    destruct (IH _ eq_refl) as [Hlen Hin]. simpl.
    split; [by rewrite Hlen |]. constructor; [| exact Hin].
    apply list_elem_of_In. eapply list_elem_of_lookup_2, Ex.
Qed.

Lemma Forall_In_transfer (P : Q -> Prop) (a xs : list Q) :
  Forall P a -> Forall (fun x => In x a) xs -> Forall P xs.
Proof.
  intros Ha Hxs. rewrite Forall_forall in Ha.
  eapply Forall_impl; [exact Hxs |]. intros x Hx.
  apply Ha. by apply list_elem_of_In.
Qed.

Lemma where_between_bounds (lo hi : Q) (freqs : list Q) :
  forall start,
  Forall (fun i => (i < start + length freqs)%nat)
         (where_between lo hi start freqs).
Proof.
  induction freqs as [| f rest IH]; intros start; simpl; [constructor |].
  destruct (_ && _).
  - constructor; [lia |]. eapply Forall_impl; [apply IH |].
    intros i Hi. simpl in Hi. lia.
  - eapply Forall_impl; [apply IH |]. intros i Hi. simpl in Hi. lia.
Qed.

Lemma np_rfftfreq_length (n : Z) (d : Q) :
  length (np_rfftfreq n d) = Z.to_nat (n / 2 + 1).
Proof. unfold np_rfftfreq, np_arange. by rewrite !length_map, length_seq. Qed.

Lemma py_slice_Forall (P : Q -> Prop) (l : list Q) (a b : Z) :
  Forall P l -> Forall P (py_slice l a b).
Proof.
  intros H. unfold py_slice. by apply Forall_take, Forall_drop.
Qed.

(** *** Smoothing keeps the unit interval *)

Lemma convex01 (alpha s d : Q) :
  0 <= alpha <= 1 -> 0 <= s <= 1 -> 0 <= d <= 1 ->
  0 <= alpha * s + (1 - alpha) * d <= 1.
Proof. intros Ha Hs Hd. nra. Qed.

Lemma np_zip_Forall (f : Q -> Q -> Q) (P1 P2 P : Q -> Prop)
    (a b r : list Q) :
  (forall x y, P1 x -> P2 y -> P (f x y)) ->
  np_zip f a b = Ok r -> Forall P1 a -> Forall P2 b -> Forall P r.
Proof.
  intros Hf H Ha Hb. unfold np_zip in H.
  destruct (length a =? length b)%nat.
  - injection H as <-. clear -Hf Ha Hb. revert b Hb.
    induction Ha as [| x a Hx Ha IH]; intros b Hb; simpl; [constructor |].
    destruct Hb as [| y b Hy Hb]; [constructor |].
    constructor; [by apply Hf | by apply IH].
  - destruct a as [| x [| x' a]].
    + destruct b as [| y [| y' b]]; try discriminate.
      injection H as <-. constructor.
    + injection H as <-. apply Forall_cons in Ha as [Hx _].
      apply Forall_map. eapply Forall_impl; [exact Hb |].
      intros y Hy. by apply Hf.
    + destruct b as [| y [| y' b]]; try discriminate.
      injection H as <-. apply Forall_cons in Hb as [Hy _].
      change (Forall P (map (fun z => f z y) (x :: x' :: a))).
      apply Forall_map. eapply Forall_impl; [exact Ha |].
      intros z Hz. by apply Hf.
Qed.

Lemma smooth_update_in01 (alpha : Q) (state data r : list Q) :
  0 <= alpha <= 1 -> all_in01 state -> all_in01 data ->
  smooth_update alpha state data = Ok r -> all_in01 r.
Proof.
  intros Ha Hs Hd H. unfold smooth_update, np_add, np_scale in H.
  eapply (np_zip_Forall Qplus
            (fun x => 0 <= x <= alpha) (fun y => 0 <= y <= 1 - alpha));
    [| exact H | |].
  - intros x y Hx Hy. lra.
  - apply Forall_map. eapply Forall_impl; [exact Hs |].
    intros x Hx. cbv beta in *. nra.
  - apply Forall_map. eapply Forall_impl; [exact Hd |].
    intros x Hx. cbv beta in *. nra.
Qed.

Lemma init_state_spec (self : option (list Q)) (n : Z) (s : list Q) :
  init_state self n = Ok s ->
  (0 <= n)%Z /\ len s = n /\
  (s = replicate (Z.to_nat n) 0 \/ self = Some s).
Proof.
  unfold init_state. destruct self as [s0 |].
  - destruct (negb _) eqn:E.
    + intros H. apply np_zeros_spec in H as [Hn ->].
      unfold len. rewrite length_replicate. split; [exact Hn |].
      split; [lia | by left].
    + intros [= <-]. apply negb_false_iff, Z.eqb_eq in E.
      split; [unfold len in E; lia |]. split; [exact E | by right].
  - intros H. apply np_zeros_spec in H as [Hn ->].
    unfold len. rewrite length_replicate. split; [exact Hn |].
    split; [lia | by left].
Qed.

Lemma init_state_in01 (self : option (list Q)) (n : Z) (s : list Q) :
  state_in01 self -> init_state self n = Ok s -> all_in01 s.
Proof.
  intros Hself H. apply init_state_spec in H as (_ & _ & [-> | ->]).
  - apply all_zero_in01, replicate_all_zero.
  - exact Hself.
Qed.

(** ** The spectrum of a frame *)

Section Spectrum.

Variable K : Kernels.
Hypothesis laws : KernelLaws K.

Lemma np_mul_zero (a w r : list Q) :
  all_zero a -> np_mul a w = Ok r -> all_zero r.
Proof.
  intros Ha H.
  eapply (np_zip_Forall Qmult (fun x => x == 0) (fun _ => True));
    [| exact H | exact Ha |].
  - intros x y Hx _. rewrite Hx. ring.
  - apply Forall_forall. done.
Qed.

Lemma np_mul_hanning (a : list Q) :
  np_mul a (hanning K (length a))
  = Ok (zip_with Qmult a (hanning K (length a))).
Proof.
  unfold np_mul, np_zip.
  by rewrite (hanning_length K laws), Nat.eqb_refl.
Qed.

Lemma padded_zero (frame : list Q) (fft_size : Z) :
  all_zero frame -> all_zero (padded frame fft_size).
Proof.
  intros H. unfold padded, np_pad_right. destruct (_ <? _)%Z; [| exact H].
  apply Forall_app. split; [exact H | apply replicate_all_zero].
Qed.

(** What [band_spectrum] computes when it raises nowhere. *)
Lemma band_spectrum_steps (p : BaseAudioProcessor) (frame : list Q)
    (fft_size : Z) (kwargs : gmap string pyval) (lo hi : Q) :
  (1 <= fft_size)%Z -> sample_rate p <> 0%Z ->
  kw_num kwargs "min_frequency" = Ok lo ->
  kw_num kwargs "max_frequency" = Ok hi ->
  let windowed := zip_with Qmult (padded frame fft_size)
                    (hanning K (length (padded frame fft_size))) in
  let selected :=
    where_between lo hi 0
      (np_rfftfreq fft_size (1 / inject_Z (sample_rate p))) in
  exists spectrum,
    band_spectrum K p frame fft_size kwargs = Ok spectrum /\
    np_take (rfft_abs K windowed fft_size) selected = Ok spectrum /\
    length spectrum = length selected.
Proof.
  intros Hn Hsr Hlo Hhi windowed selected.
  unfold band_spectrum. fold (padded frame fft_size).
  rewrite np_mul_hanning. simpl. fold windowed.
  unfold np_rfft_abs. replace (fft_size <? 1)%Z with false
    by (symmetry; apply Z.ltb_ge; lia).
  simpl. unfold py_div.
  destruct (Qeq_bool (inject_Z (sample_rate p)) 0) eqn:E.
  { apply Qeq_bool_iff in E. exfalso. apply Hsr.
    unfold Qeq in E. simpl in E. lia. }
  simpl. rewrite Hlo, Hhi. simpl. fold selected.
  destruct (np_take_spec (rfft_abs K windowed fft_size) selected)
    as (xs & Htake & Hlen & _).
  { eapply Forall_impl; [apply where_between_bounds |].
    intros i Hi. simpl in Hi.
    rewrite np_rfftfreq_length in Hi.
    rewrite (rfft_abs_length K laws) by exact Hn. exact Hi. }
  exists xs. by rewrite Htake.
Qed.

(** Every entry [band_spectrum] returns is a magnitude of the transform of
    the padded, windowed frame. *)
Lemma band_spectrum_entries (p : BaseAudioProcessor) (frame : list Q)
    (fft_size : Z) (kwargs : gmap string pyval) (spectrum : list Q) :
  band_spectrum K p frame fft_size kwargs = Ok spectrum ->
  exists windowed,
    np_mul (padded frame fft_size)
           (hanning K (length (padded frame fft_size))) = Ok windowed /\
    Forall (fun x => In x (rfft_abs K windowed fft_size)) spectrum.
Proof.
  unfold band_spectrum. fold (padded frame fft_size). intros H.
  inv_bind H.
  match goal with
  | E : np_rfft_abs _ _ _ = Ok _ |- _ =>
      unfold np_rfft_abs in E; destruct (_ <? 1)%Z; [discriminate |];
      injection E as <-
  end.
  eexists. split; [reflexivity |]. by apply np_take_ok in H as [_ H].
Qed.

Lemma band_spectrum_nonneg (p : BaseAudioProcessor) (frame : list Q)
    (fft_size : Z) (kwargs : gmap string pyval) (spectrum : list Q) :
  band_spectrum K p frame fft_size kwargs = Ok spectrum ->
  Forall (fun x => 0 <= x) spectrum.
Proof.
  intros H. apply band_spectrum_entries in H as (w & _ & H).
  eapply Forall_In_transfer; [apply (rfft_abs_nonneg K laws) | exact H].
Qed.

Lemma band_spectrum_zero (p : BaseAudioProcessor) (frame : list Q)
    (fft_size : Z) (kwargs : gmap string pyval) (spectrum : list Q) :
  all_zero frame ->
  band_spectrum K p frame fft_size kwargs = Ok spectrum ->
  all_zero spectrum.
Proof.
  intros Hz H. apply band_spectrum_entries in H as (w & Hw & H).
  eapply Forall_In_transfer; [| exact H].
  apply (rfft_abs_zero K laws).
  eapply np_mul_zero; [| exact Hw]. by apply padded_zero.
Qed.

Lemma map_log1p_zero (s : list Q) :
  all_zero s -> all_zero (map (log1p K) s).
Proof.
  intros H. apply Forall_map. eapply Forall_impl; [exact H |].
  intros x Hx. by apply (log1p_zero K laws).
Qed.

Lemma map_log1p_nonneg (s : list Q) :
  Forall (fun x => 0 <= x) s -> Forall (fun x => 0 <= x) (map (log1p K) s).
Proof.
  intros H. apply Forall_map. eapply Forall_impl; [exact H |].
  intros x Hx. by apply (log1p_nonneg K laws).
Qed.

(** Dividing by the maximum puts non-negative entries in [0, 1]. *)
Lemma np_div_max_in01 (s r : list Q) (m : Q) :
  Forall (fun x => 0 <= x) s -> np_max s = Ok m ->
  np_div_scalar s m = Ok r -> all_in01 r.
Proof.
  intros Hs Hm H. apply np_max_spec in Hm as [Hle Hin].
  unfold np_div_scalar in H. destruct (Qeq_bool m 0) eqn:E; [discriminate |].
  injection H as <-. apply Qeq_bool_false in E.
  assert (Hm0 : 0 < m).
  { rewrite Forall_forall in Hs. apply list_elem_of_In in Hin.
    specialize (Hs m Hin). simpl in Hs. lra. }
  apply Forall_map. rewrite Forall_forall in Hs, Hle.
  apply Forall_forall. intros x Hx. specialize (Hs x Hx).
  specialize (Hle x Hx). simpl in Hs, Hle. split.
  - apply Qle_shift_div_l; [exact Hm0 | lra].
  - apply Qle_shift_div_r; [exact Hm0 | lra].
Qed.

Lemma log_normalize_in01 (s r : list Q) :
  Forall (fun x => 0 <= x) s -> log_normalize K s = Ok r -> all_in01 r.
Proof.
  intros Hs H. unfold log_normalize in H. inv_bind H.
  apply map_log1p_nonneg in Hs.
  destruct (negb _) eqn:Em.
  - eapply np_div_max_in01; eassumption.
  - injection H as <-. apply negb_false_iff, Qeq_bool_iff in Em.
    match goal with
    | E : np_max _ = Ok _ |- _ => apply np_max_spec in E as [Hle _]
    end.
    rewrite Forall_forall in Hs, Hle. apply Forall_forall.
    intros x Hx. specialize (Hs x Hx). specialize (Hle x Hx).
    simpl in Hs, Hle. lra.
Qed.

(** On an all-zero spectrum with at least one bin the maximum is zero and
    the division is skipped; on a spectrum with no bin [np.max] raises. *)
Lemma log_normalize_zero (s : list Q) :
  all_zero s ->
  log_normalize K s
  = match s with
    | [] => Err ValueError
    | _ => Ok (map (log1p K) s)
    end.
Proof.
  intros Hs. unfold log_normalize. destruct s as [| x rest]; [done |].
  pose proof (map_log1p_zero _ Hs) as Hz.
  destruct (np_max (map (log1p K) (x :: rest))) as [m |] eqn:Em;
    [| discriminate].
  simpl. apply np_max_spec in Em as [_ Hin].
  unfold all_zero in Hz. rewrite Forall_forall in Hz.
  apply list_elem_of_In, Hz in Hin. simpl in Hin.
  apply Qeq_bool_iff in Hin. by rewrite Hin.
Qed.

End Spectrum.

(** ** Linear interpolation *)

Lemma interp_from_zero (x : Q) (pts : list (Q * Q)) :
  forall x0 y0,
  y0 == 0 -> Forall (fun pt => snd pt == 0) pts ->
  interp_from x x0 y0 pts == 0.
Proof.
  induction pts as [| [x1 y1] rest IH]; intros x0 y0 Hy0 Hall; simpl.
  - exact Hy0.
  - apply Forall_cons in Hall as [Hy1 Hrest]. simpl in Hy1.
    destruct (Qlt_bool x x1).
    + rewrite Hy0, Hy1. unfold Qdiv. ring.
    + by apply IH.
Qed.

Lemma zip_snd_Forall (P : Q -> Prop) (xp fp : list Q) :
  Forall P fp -> Forall (fun pt => P (snd pt)) (zip xp fp).
Proof.
  intros H. revert xp. induction H as [| y fp Hy H IH]; intros [| x xp];
    simpl; try constructor; [exact Hy | apply IH].
Qed.

Lemma np_interp_zero (x xp fp ys : list Q) :
  all_zero fp -> np_interp x xp fp = Ok ys -> all_zero ys.
Proof.
  intros Hz H. unfold np_interp in H.
  destruct (negb _); [discriminate |].
  pose proof (zip_snd_Forall (fun y => y == 0) xp fp Hz) as Hpts.
  destruct (zip xp fp) as [| [x0 y0] rest]; [discriminate |].
  injection H as <-. apply Forall_cons in Hpts as [Hy0 Hrest].
  apply Forall_map. apply Forall_forall. intros v _. simpl.
  destruct (Qle_bool v x0); [exact Hy0 |].
  by apply interp_from_zero.
Qed.

Lemma interp_segment_in01 (x x0 x1 y0 y1 : Q) :
  x0 <= x -> x < x1 -> 0 <= y0 <= 1 -> 0 <= y1 <= 1 ->
  0 <= y0 + (y1 - y0) / (x1 - x0) * (x - x0) <= 1.
Proof.
  intros Hx0 Hx1 Hy0 Hy1.
  set (t := (x - x0) / (x1 - x0)).
  assert (Hd : 0 < x1 - x0) by lra.
  assert (Ht0 : 0 <= t) by (apply Qle_shift_div_l; [exact Hd | lra]).
  assert (Ht1 : t <= 1) by (apply Qle_shift_div_r; [exact Hd | lra]).
  assert (Heq : y0 + (y1 - y0) / (x1 - x0) * (x - x0)
                == y0 + (y1 - y0) * t).
  { unfold t. field. lra. }
  rewrite Heq. nra.
Qed.

Lemma interp_from_in01 (x : Q) (pts : list (Q * Q)) :
  forall x0 y0,
  x0 <= x -> increasing_from x0 (map fst pts) ->
  0 <= y0 <= 1 -> Forall (fun pt => 0 <= snd pt <= 1) pts ->
  0 <= interp_from x x0 y0 pts <= 1.
Proof.
  induction pts as [| [x1 y1] rest IH]; intros x0 y0 Hx Hinc Hy0 Hall;
    simpl.
  - exact Hy0.
  - apply Forall_cons in Hall as [Hy1 Hrest]. simpl in Hy1, Hinc.
    destruct Hinc as [Hlt Hinc].
    destruct (Qlt_bool x x1) eqn:E.
    + apply Qlt_bool_iff in E. by apply interp_segment_in01.
    + apply IH; try assumption.
      destruct (Qlt_le_dec x x1) as [Hc | Hc]; [| exact Hc].
      apply Qlt_bool_iff in Hc. congruence.
Qed.

Lemma zip_fst_same_length (xp fp : list Q) :
  length xp = length fp -> map fst (zip xp fp) = xp.
Proof.
  revert fp. induction xp as [| x xp IH]; intros [| y fp] Hlen;
    simpl in *; try discriminate; [reflexivity |].
  f_equal. apply IH. lia.
Qed.

(** Interpolating values of [0, 1] over increasing sample points stays in
    [0, 1]. *)
Lemma np_interp_in01 (x xp fp ys : list Q) :
  match xp with
  | [] => True
  | x0 :: rest => increasing_from x0 rest
  end ->
  all_in01 fp -> np_interp x xp fp = Ok ys -> all_in01 ys.
Proof.
  intros Hinc Hfp H. unfold np_interp in H.
  destruct (negb _) eqn:Elen; [discriminate |].
  apply negb_false_iff, Nat.eqb_eq in Elen.
  pose proof (zip_snd_Forall (fun y => 0 <= y <= 1) xp fp Hfp) as Hpts.
  pose proof (zip_fst_same_length xp fp Elen) as Hfst.
  destruct (zip xp fp) as [| [x0 y0] rest]; [discriminate |].
  injection H as <-. apply Forall_cons in Hpts as [Hy0 Hrest].
  simpl in Hfst. rewrite <- Hfst in Hinc.
  apply Forall_map. apply Forall_forall. intros v _. simpl.
  destruct (Qle_bool v x0) eqn:E; [exact Hy0 |].
  apply interp_from_in01; try assumption.
  destruct (Qlt_le_dec x0 v) as [Hc | Hc]; [lra |].
  apply Qle_bool_iff in Hc. congruence.
Qed.

Lemma affine_increasing (start step : Q) (n : nat) :
  0 < step ->
  forall a,
  increasing_from (start + inject_Z (Z.of_nat a) * step)
    (map (fun i => start + inject_Z (Z.of_nat i) * step)
         (seq (Datatypes.S a) n)).
Proof.
  intros Hstep. induction n as [| n IH]; intros a; simpl; [exact I |].
  split; [| apply IH].
  rewrite Nat2Z.inj_succ. unfold Z.succ. rewrite inject_Z_plus.
  change (inject_Z 1) with 1. nra.
Qed.

Lemma np_arange_increasing (n : nat) :
  match np_arange n with
  | [] => True
  | x0 :: rest => increasing_from x0 rest
  end.
Proof.
  unfold np_arange. destruct n as [| n]; simpl; [exact I |].
  generalize 0%nat as a. induction n as [| n IH]; intros a; simpl;
    [exact I |].
  split; [rewrite <- Zlt_Qlt; lia | apply IH].
Qed.

(** ** Feature vectors *)

Section Features.

Variable K : Kernels.
Hypothesis laws : KernelLaws K.

Lemma resample_bins_length (s d : list Q) (n : Z) :
  resample_bins s n = Ok d -> (0 <= n)%Z /\ len d = n.
Proof.
  unfold resample_bins. intros H. inv_bind H.
  apply np_interp_length in H.
  match goal with
  | E : np_linspace _ _ _ _ = Ok _ |- _ =>
      apply np_linspace_length in E as [Hn Hl]
  end.
  split; [exact Hn |]. unfold len. lia.
Qed.

Lemma resample_bins_in01 (s d : list Q) (n : Z) :
  all_in01 s -> resample_bins s n = Ok d -> all_in01 d.
Proof.
  unfold resample_bins. intros Hs H. inv_bind H.
  eapply np_interp_in01; [apply np_arange_increasing | exact Hs | exact H].
Qed.

Lemma resample_bins_zero (s d : list Q) (n : Z) :
  all_zero s -> resample_bins s n = Ok d -> all_zero d.
Proof.
  unfold resample_bins. intros Hs H. inv_bind H.
  eapply np_interp_zero; [exact Hs | exact H].
Qed.

(** Resampling a spectrum with at least one bin raises nothing. *)
Lemma resample_bins_ok (s : list Q) (n : Z) :
  s <> [] -> (0 <= n)%Z -> exists d, resample_bins s n = Ok d.
Proof.
  intros Hs Hn. unfold resample_bins, np_linspace.
  replace (n <? 0)%Z with false by (symmetry; apply Z.ltb_ge; lia).
  simpl. unfold np_interp, np_arange.
  rewrite length_map, length_seq, Nat.eqb_refl. simpl.
  destruct s as [| y s]; [done |]. simpl. eauto.
Qed.

Lemma Bar_data_in01 (p : BaseAudioProcessor) (i n : Z) (d : list Q) :
  Bar_data K p i n = Ok d -> all_in01 d.
Proof.
  unfold Bar_data. destruct (_ =? 0)%Z.
  - intros H. apply np_zeros_spec in H as [_ ->].
    apply all_zero_in01, replicate_all_zero.
  - intros H. inv_bind H. injection H as <-.
    apply py_slice_Forall. eapply (log_normalize_in01 K laws); [| eassumption].
    match goal with
    | E : np_rfft_abs _ _ _ = Ok _ |- _ =>
        unfold np_rfft_abs in E; destruct (_ <? 1)%Z; [discriminate |];
        injection E as <-
    end.
    apply (rfft_abs_nonneg K laws).
Qed.

Lemma FreqAmplitude_data_in01 (p : BaseAudioProcessor) (i n : Z)
    (kwargs : gmap string pyval) (d : list Q) :
  FreqAmplitude_data K p i n kwargs = Ok d -> all_in01 d.
Proof.
  unfold FreqAmplitude_data. intros H. inv_bind H.
  eapply (log_normalize_in01 K laws); [| exact H].
  eapply (band_spectrum_nonneg K laws). eassumption.
Qed.

Lemma Circular_data_in01 (p : BaseAudioProcessor) (i n m : Z)
    (kwargs : gmap string pyval) (d : list Q) :
  Circular_data K p i n m kwargs = Ok d -> all_in01 d.
Proof.
  unfold Circular_data. intros H. inv_bind H.
  eapply resample_bins_in01; [| exact H].
  eapply (log_normalize_in01 K laws); [| eassumption].
  eapply (band_spectrum_nonneg K laws). eassumption.
Qed.

Lemma CircleDeform_data_in01 (p : BaseAudioProcessor) (i n m : Z)
    (kwargs : gmap string pyval) (d : list Q) :
  CircleDeform_data K p i n m kwargs = Ok d -> all_in01 d.
Proof.
  unfold CircleDeform_data. intros H.
  unfold mbind, result_bind in H.
  destruct (band_spectrum K p _ n kwargs) as [s |] eqn:Es; [| discriminate].
  apply (band_spectrum_nonneg K laws) in Es.
  destruct (_ || _).
  - destruct (np_zeros m) as [z |] eqn:Ez; [| discriminate].
    apply np_zeros_spec in Ez as [_ ->].
    eapply resample_bins_in01; [| exact H].
    apply all_zero_in01, replicate_all_zero.
  - destruct (np_max (map (log1p K) s)) as [mx |] eqn:Em; [| discriminate].
    destruct (np_div_scalar (map (log1p K) s) mx) as [r |] eqn:Er;
      [| discriminate].
    eapply resample_bins_in01; [| exact H].
    eapply np_div_max_in01; [| exact Em | exact Er].
    by apply (map_log1p_nonneg K laws).
Qed.

End Features.

(** ** The state stays in the unit interval *)

(** One call of [get_audio_data] keeps the invariant. *)
Lemma get_audio_data_in01 (K : Kernels) (v : variant)
    (self self' : option (list Q)) (p : BaseAudioProcessor) (i : Z)
    (kwargs : gmap string pyval) (smoothing : Q) (fv : feature_result) :
  KernelLaws K -> state_in01 self ->
  kw_num kwargs "smoothing" = Ok smoothing -> 0 <= smoothing <= 1 ->
  get_audio_data (Visualizer := visualizer_of K v) self p i kwargs
    = Ok (self', fv) ->
  exists state, self' = Some state /\ all_in01 state.
Proof.
  intros laws Hself Hs Hrange H.
  destruct v; simpl in H;
    [unfold Bar_get_audio_data in H
    | unfold FreqAmplitude_get_audio_data in H
    | unfold Circular_get_audio_data in H
    | unfold CircleDeform_get_audio_data in H];
    inv_bind H; injection H as <- <-;
    injection Hs as ->;
    eexists; (split; [reflexivity |]);
    (eapply smooth_update_in01;
       [exact Hrange | eapply init_state_in01; [exact Hself | eassumption]
       | | eassumption]).
  - eapply Bar_data_in01; eassumption.
  - eapply FreqAmplitude_data_in01; eassumption.
  - eapply Circular_data_in01; eassumption.
  - eapply CircleDeform_data_in01; eassumption.
Qed.


(** ** The rational kernels satisfy the laws *)

Lemma sum_imap_zero (g : nat -> Q -> Q) (x : list Q) :
  (forall j v, v == 0 -> g j v == 0) -> all_zero x ->
  foldr Qplus 0 (imap g x) == 0.
Proof.
  intros Hg Hx. revert g Hg.
  induction Hx as [| v x Hv Hx IH]; intros g Hg; simpl; [reflexivity |].
  rewrite (Hg _ _ Hv), IH; [reflexivity |].
  intros j w Hw. by apply Hg.
Qed.

Lemma test_kernels_laws : KernelLaws test_kernels.
Proof.
  constructor; simpl.
  - intros a n _. unfold rfft_abs_pm. by rewrite length_map, length_seq.
  - intros a n. unfold rfft_abs_pm. apply Forall_map, Forall_forall.
    intros k _. apply Qabs_nonneg.
  - intros a n Ha. unfold rfft_abs_pm. apply Forall_map, Forall_forall.
    intros k _. simpl. rewrite sum_imap_zero; [reflexivity | |].
    + intros j v Hv. rewrite Hv. ring.
    + apply Forall_take, Forall_app. split; [exact Ha |].
      apply replicate_all_zero.
  - intros x Hx. unfold log1p_pade. rewrite Hx. reflexivity.
  - intros x Hx. unfold log1p_pade. apply Qdiv_nonneg; lra.
  - intros M. unfold hanning_tri.
    destruct M as [| [| M]]; try reflexivity.
    by rewrite length_map, length_seq.
Qed.

Lemma processor_8_init :
  BaseAudioProcessor_init audio_8 2 100 200 1 = Ok processor_8.
Proof. reflexivity. Qed.

Lemma processor_44k_init :
  BaseAudioProcessor_init audio_44k 2 600 800 30 = Ok processor_44k
  /\ BaseAudioProcessor_init silence_44k 2 600 800 30 = Ok processor_silence.
Proof. split; vm_compute; reflexivity. Qed.


(** ** Degenerate frequency range *)

Lemma np_zeros_ok (n : Z) :
  (0 <= n)%Z -> np_zeros n = Ok (replicate (Z.to_nat n) 0).
Proof.
  intros Hn. unfold np_zeros.
  by replace (n <? 0)%Z with false by (symmetry; apply Z.ltb_ge; lia).
Qed.

Lemma replicate_nonempty (n : Z) : (1 <= n)%Z -> replicate (Z.to_nat n) 0 <> [].
Proof.
  intros Hn. destruct (Z.to_nat n) eqn:E; [lia | discriminate].
Qed.

(** The zero vector of [num_points] entries resamples to a zero vector of
    [num_points] entries. *)
Lemma resample_zeros (m : Z) :
  (1 <= m)%Z ->
  exists data, resample_bins (replicate (Z.to_nat m) 0) m = Ok data /\
               all_zero data /\ len data = m.
Proof.
  intros Hm.
  destruct (resample_bins_ok (replicate (Z.to_nat m) 0) m) as [d Hd];
    [by apply replicate_nonempty | lia |].
  exists d. split; [exact Hd |]. split.
  - eapply resample_bins_zero; [apply replicate_all_zero | exact Hd].
  - by apply resample_bins_length in Hd as [_ Hd].
Qed.

Lemma get_audio_data_update (self : option (list Q)) (m : Z) (alpha : Q)
    (data : list Q) :
  (0 <= m)%Z -> len data = m ->
  exists prev state,
    init_state self m = Ok prev /\ smooth_update alpha prev data = Ok state.
Proof.
  intros Hm Hlen.
  assert (Hinit : exists prev, init_state self m = Ok prev).
  { unfold init_state. destruct self as [s |]; [destruct (negb _) |];
      rewrite ?np_zeros_ok by exact Hm; eauto. }
  destruct Hinit as [prev Hprev]. exists prev.
  pose proof (init_state_spec _ _ _ Hprev) as (_ & Hl & _).
  rewrite smooth_update_same_length by (unfold len in *; lia).
  eauto.
Qed.

(** C1, at the inputs where the frequency range selects no bin.
    [FreqAmplitude] and [Circular] raise [ValueError] there ([np.max] of a
    zero-size array); only [CircleDeform], which tests for the empty
    spectrum, takes the spectrum to be [num_points] zeros and returns. *)
Theorem no_bin_selected (K : Kernels) (self : option (list Q))
    (p : BaseAudioProcessor) (i : Z) (kwargs : gmap string pyval)
    (fft_size : Z) (smoothing lo hi : Q) :
  KernelLaws K ->
  kw_index kwargs "fft_size" = Ok fft_size -> (1 <= fft_size)%Z ->
  kw_num kwargs "smoothing" = Ok smoothing ->
  kw_num kwargs "min_frequency" = Ok lo ->
  kw_num kwargs "max_frequency" = Ok hi ->
  sample_rate p <> 0%Z ->
  where_between lo hi 0
    (np_rfftfreq fft_size (1 / inject_Z (sample_rate p))) = [] ->
  FreqAmplitude_get_audio_data K self p i kwargs = Err ValueError /\
  (forall num_points,
     kw_round kwargs "num_points" = Ok num_points ->
     Circular_get_audio_data K self p i kwargs = Err ValueError) /\
  (forall num_points,
     kw_round kwargs "num_points" = Ok num_points -> (1 <= num_points)%Z ->
     exists data prev state,
       CircleDeform_data K p i fft_size num_points kwargs = Ok data /\
       all_zero data /\ len data = num_points /\
       init_state self num_points = Ok prev /\
       smooth_update smoothing prev data = Ok state /\
       CircleDeform_get_audio_data K self p i kwargs
       = Ok (Some state, np_mean state)).
Proof.
  intros laws Hfft Hn Hs Hlo Hhi Hsr Hsel.
  destruct (band_spectrum_steps K laws p (_get_audio_frame p i) fft_size
              kwargs lo hi Hn Hsr Hlo Hhi) as (spectrum & Hband & _ & Hlen).
  rewrite Hsel in Hlen. destruct spectrum; [| discriminate]. clear Hlen.
  split; [| split].
  - unfold FreqAmplitude_get_audio_data, FreqAmplitude_data.
    rewrite Hfft, Hs. simpl. by rewrite Hband.
  - intros m Hm. unfold Circular_get_audio_data, Circular_data.
    rewrite Hfft, Hs, Hm. simpl. by rewrite Hband.
  - intros m Hm Hm1.
    destruct (resample_zeros m Hm1) as (data & Hdata & Hzero & Hlen).
    destruct (get_audio_data_update self m smoothing data ltac:(lia) Hlen)
      as (prev & state & Hprev & Hstate).
    assert (Hd : CircleDeform_data K p i fft_size m kwargs = Ok data).
    { unfold CircleDeform_data. rewrite Hband. simpl.
      rewrite np_zeros_ok by lia. exact Hdata. }
    exists data, prev, state. repeat (split; [assumption |]).
    unfold CircleDeform_get_audio_data. rewrite Hfft, Hs, Hm. simpl.
    rewrite Hd. simpl. rewrite Hprev. simpl. by rewrite Hstate.
Qed.

Lemma no_bin_selected_witness :
  FreqAmplitude_get_audio_data test_kernels None processor_44k 0 kwargs_narrow
  = Err ValueError
  /\ Circular_get_audio_data test_kernels None processor_44k 0 kwargs_narrow
     = Err ValueError.
Proof.
  destruct (no_bin_selected test_kernels None processor_44k 0 kwargs_narrow
              256 (1 # 2) 20 100 test_kernels_laws)
    as (H1 & H2 & _);
    try (vm_compute; reflexivity); try discriminate.
  split; [exact H1 |]. apply (H2 360%Z). vm_compute. reflexivity.
Defined.

(** ** Silence *)

Lemma get_audio_frame_zero (p : BaseAudioProcessor) (i : Z) :
  all_zero (audio p) -> all_zero (_get_audio_frame p i).
Proof. intros H. unfold _get_audio_frame. by apply py_slice_Forall. Qed.

Lemma np_all_zero_true (s : list Q) : all_zero s -> np_all_zero s = true.
Proof.
  intros H. unfold np_all_zero. apply forallb_forall. intros x Hx.
  unfold all_zero in H. rewrite Forall_forall in H.
  apply Qeq_bool_iff, H. by apply list_elem_of_In.
Qed.

Section Silence.

Variable K : Kernels.
Hypothesis laws : KernelLaws K.
Variables (p : BaseAudioProcessor) (i : Z).
Hypothesis silent : all_zero (_get_audio_frame p i).

Lemma Bar_data_silent (n : Z) :
  (1 <= n)%Z ->
  exists d, Bar_data K p i n = Ok d /\ all_zero d /\ len d = n.
Proof.
  intros Hn. unfold Bar_data. destruct (_ =? 0)%Z.
  - rewrite np_zeros_ok by lia. eexists. split; [reflexivity |].
    split; [apply replicate_all_zero |].
    unfold len. rewrite length_replicate. lia.
  - unfold np_rfft_abs.
    replace (n * 2 <? 1)%Z with false by (symmetry; apply Z.ltb_ge; lia).
    simpl.
    pose proof (rfft_abs_zero K laws _ (n * 2)%Z silent) as Hz.
    pose proof (rfft_abs_length K laws (_get_audio_frame p i) (n * 2)%Z
                  ltac:(lia)) as Hl.
    rewrite Z.div_mul in Hl by lia.
    rewrite (log_normalize_zero K laws _ Hz).
    set (r := rfft_abs K (_get_audio_frame p i) (n * 2)) in *.
    assert (Hr : match r with
                 | [] => Err ValueError
                 | _ => Ok (map (log1p K) r)
                 end = Ok (map (log1p K) r)).
    { destruct r; [simpl in Hl; lia | reflexivity]. }
    rewrite Hr. simpl. eexists. split; [reflexivity |].
    split.
    + apply py_slice_Forall. by apply (map_log1p_zero K laws).
    + rewrite py_slice_nonneg by lia. unfold len.
      rewrite length_take, length_drop, length_map. lia.
Qed.

Variables (kwargs : gmap string pyval) (fft_size : Z) (lo hi : Q).
Hypothesis fft_size_pos : (1 <= fft_size)%Z.
Hypothesis rate_nonzero : sample_rate p <> 0%Z.
Hypothesis min_frequency : kw_num kwargs "min_frequency" = Ok lo.
Hypothesis max_frequency : kw_num kwargs "max_frequency" = Ok hi.

Let selected : list nat :=
  where_between lo hi 0
    (np_rfftfreq fft_size (1 / inject_Z (sample_rate p))).

Lemma band_spectrum_silent :
  exists s, band_spectrum K p (_get_audio_frame p i) fft_size kwargs = Ok s
            /\ all_zero s /\ length s = length selected.
Proof.
  destruct (band_spectrum_steps K laws p (_get_audio_frame p i) fft_size
              kwargs lo hi fft_size_pos rate_nonzero min_frequency
              max_frequency) as (s & Hband & _ & Hlen).
  exists s. split; [exact Hband |]. split; [| exact Hlen].
  eapply (band_spectrum_zero K laws); [exact silent | exact Hband].
Qed.

Lemma frequency_data_silent_no_bin :
  selected = [] ->
  FreqAmplitude_data K p i fft_size kwargs = Err ValueError /\
  forall m, Circular_data K p i fft_size m kwargs = Err ValueError.
Proof.
  intros Hsel. destruct band_spectrum_silent as (s & Hband & _ & Hlen).
  rewrite Hsel in Hlen. destruct s; [| discriminate].
  unfold FreqAmplitude_data, Circular_data. by rewrite Hband.
Qed.

Lemma frequency_data_silent :
  selected <> [] ->
  (exists d, FreqAmplitude_data K p i fft_size kwargs = Ok d /\
             all_zero d /\ length d = length selected) /\
  (forall m, (0 <= m)%Z ->
     exists d, Circular_data K p i fft_size m kwargs = Ok d /\
               all_zero d /\ len d = m).
Proof.
  intros Hsel. destruct band_spectrum_silent as (s & Hband & Hz & Hlen).
  assert (Hs : s <> []) by (intros ->; destruct selected; done).
  assert (Hnorm : log_normalize K s = Ok (map (log1p K) s)).
  { rewrite (log_normalize_zero K laws _ Hz). by destruct s. }
  pose proof (map_log1p_zero K laws _ Hz) as Hz'.
  split.
  - exists (map (log1p K) s).
    unfold FreqAmplitude_data. rewrite Hband. simpl.
    split; [exact Hnorm |]. split; [exact Hz' |].
    by rewrite length_map.
  - intros m Hm.
    destruct (resample_bins_ok (map (log1p K) s) m) as [d Hd];
      [by destruct s | exact Hm |].
    exists d. unfold Circular_data. rewrite Hband. simpl.
    rewrite Hnorm. simpl. split; [exact Hd |]. split.
    + eapply resample_bins_zero; [exact Hz' | exact Hd].
    + by apply resample_bins_length in Hd as [_ Hd].
Qed.

Lemma CircleDeform_data_silent (m : Z) :
  (1 <= m)%Z ->
  exists d, CircleDeform_data K p i fft_size m kwargs = Ok d /\
            all_zero d /\ len d = m.
Proof.
  intros Hm. destruct band_spectrum_silent as (s & Hband & Hz & _).
  destruct (resample_zeros m Hm) as (d & Hd & Hzero & Hlen).
  exists d. unfold CircleDeform_data. rewrite Hband. simpl.
  rewrite (np_all_zero_true _ Hz), orb_true_r, np_zeros_ok by lia.
  done.
Qed.

End Silence.

(** C3, on the code.  For a frame whose samples are all zero (the empty
    frame included): [Bar] and [CircleDeform] yield a zero vector of
    [num_bars], respectively [num_points], entries; [FreqAmplitude] and
    [Circular] yield a zero vector (one entry for each selected bin,
    respectively [num_points] entries) if the frequency range selects at
    least one bin, and raise [ValueError] if it selects none.  No outcome is
    a division by zero. *)
Theorem silent_window (K : Kernels) (p : BaseAudioProcessor) (i : Z)
    (kwargs : gmap string pyval) (fft_size : Z) (lo hi : Q) :
  KernelLaws K ->
  all_zero (_get_audio_frame p i) ->
  (1 <= fft_size)%Z -> sample_rate p <> 0%Z ->
  kw_num kwargs "min_frequency" = Ok lo ->
  kw_num kwargs "max_frequency" = Ok hi ->
  let selected :=
    where_between lo hi 0
      (np_rfftfreq fft_size (1 / inject_Z (sample_rate p))) in
  (forall n, (1 <= n)%Z ->
     exists d, Bar_data K p i n = Ok d /\ all_zero d /\ len d = n) /\
  (forall m, (1 <= m)%Z ->
     exists d, CircleDeform_data K p i fft_size m kwargs = Ok d /\
               all_zero d /\ len d = m) /\
  (selected <> [] ->
   (exists d, FreqAmplitude_data K p i fft_size kwargs = Ok d /\
              all_zero d /\ length d = length selected) /\
   (forall m, (0 <= m)%Z ->
      exists d, Circular_data K p i fft_size m kwargs = Ok d /\
                all_zero d /\ len d = m)) /\
  (selected = [] ->
   FreqAmplitude_data K p i fft_size kwargs = Err ValueError /\
   forall m, Circular_data K p i fft_size m kwargs = Err ValueError).
Proof.
  intros laws Hsil Hn Hsr Hlo Hhi selected.
  split; [by apply Bar_data_silent |].
  split; [by eapply CircleDeform_data_silent |].
  split; [by eapply frequency_data_silent |].
  by eapply frequency_data_silent_no_bin.
Qed.

Lemma silent_window_witness :
  FreqAmplitude_data test_kernels processor_silence 0 256 kwargs_narrow
  = Err ValueError
  /\ (exists d, FreqAmplitude_data test_kernels processor_silence 0 256
                  kwargs_wide = Ok d /\ all_zero d)
  /\ (exists d, Bar_data test_kernels processor_silence 0 64 = Ok d
                /\ all_zero d /\ len d = 64%Z).
Proof.
  assert (Hsil : all_zero (_get_audio_frame processor_silence 0)).
  { apply get_audio_frame_zero. apply replicate_all_zero. }
  destruct (silent_window test_kernels processor_silence 0 kwargs_narrow 256
              20 100 test_kernels_laws Hsil)
    as (Hbar & _ & _ & Hnone);
    try (vm_compute; reflexivity); try discriminate.
  destruct (silent_window test_kernels processor_silence 0 kwargs_wide 256
              20 8000 test_kernels_laws Hsil)
    as (_ & _ & Hsome & _);
    try (vm_compute; reflexivity); try discriminate.
  split; [apply Hnone; vm_compute; reflexivity |].
  split.
  - destruct Hsome as [(d & Hd & Hz & _) _]; [vm_compute; discriminate |].
    exists d. split; [exact Hd | exact Hz].
  - apply Hbar. discriminate.
Defined.

(** ** The state at drawing time *)

(** C2, on the code.  [FlexAudioVisualizerBar.draw] neither resamples nor
    replaces the state: whatever [num_bars] is at drawing time, it returns the
    state it was given and draws one bar for each entry of that state (plus
    the rotation of the image, if any).  [num_bars] only enters the width of
    the bars. *)
Theorem Bar_draw_keeps_state (self self' : option (list Q))
    (p : BaseAudioProcessor) (kwargs : gmap string pyval) (im : Image) :
  Bar_draw self p kwargs = Ok (self', im) ->
  self' = self /\
  exists bars rotation,
    self = Some bars /\
    kw_num kwargs "rotation" = Ok rotation /\
    length (img_calls im)
    = (length bars + if Qeq_bool (py_mod rotation 360) 0 then 0 else 1)%nat.
Proof.
  intros H. apply Bar_draw_spec in H as (Hself & _ & Hcalls). done.
Qed.

Lemma Bar_draw_keeps_state_witness :
  exists log' st' bars im count,
    frame_body (V := Bar test_kernels) processor_8 1 "num_bars" "relative"
      (Some (fun _ => 1)) (mkLoop None kwargs_bar []) 0 []
    = (log', Ok st') /\
    kw_num (ls_kwargs st') "num_bars" = Ok count /\ count == 3 /\
    ls_self st' = Some bars /\ length bars = 2%nat /\
    ls_result st' = [im] /\ length (img_calls im) = 2%nat.
Proof.
  destruct (frame_body (V := Bar test_kernels) processor_8 1 "num_bars"
              "relative" (Some (fun _ => 1)) (mkLoop None kwargs_bar []) 0 [])
    as [log' [st' |]] eqn:E; [| vm_compute in E; discriminate].
  pose proof (frame_body_ok _ _ _ _ _ _ _ _ _ _ E)
    as (_ & self1 & fv & im & Hg & Hkw & Hd & Hres).
  simpl in Hg, Hkw, Hd, Hres.
  destruct (Bar_draw_keeps_state _ _ _ _ _ Hd)
    as (Hself & bars & rotation & Hbars & Hrot & Hcalls).
  assert (Hlen : length bars = 2%nat).
  { rewrite Hbars in Hg. vm_compute in Hg. by injection Hg as <- _. }
  assert (Hrot0 : rotation = 0).
  { rewrite Hkw in Hrot. vm_compute in Hrot. by injection Hrot as <-. }
  exists log', st', bars, im.
  eexists. split; [reflexivity |].
  split; [rewrite Hkw; vm_compute; reflexivity |].
  split; [reflexivity |]. split; [congruence |]. split; [exact Hlen |].
  split; [exact Hres |]. rewrite Hcalls, Hlen, Hrot0. reflexivity.
Defined.

(** In [Circular] and [CircleDeform] the guard of [draw] makes the state as
    long as [round(num_points)] before anything is drawn. *)
Lemma circle_draw_matches_points (K : Kernels) (self self' : option (list Q))
    (p : BaseAudioProcessor) (kwargs : gmap string pyval) (im : Image) :
  Circular_draw K self p kwargs = Ok (self', im) \/
  CircleDeform_draw K self p kwargs = Ok (self', im) ->
  exists num_points spectrum,
    kw_round kwargs "num_points" = Ok num_points /\
    self' = Some spectrum /\ len spectrum = num_points.
Proof.
  intros [H | H].
  - apply Circular_draw_spec in H as (_ & n & s & Hn & _ & Hs & Hl).
    by exists n, s.
  - apply CircleDeform_draw_spec in H as (_ & n & s & Hn & _ & Hs & Hl).
    by exists n, s.
Qed.

(** ** The invariant along a run *)

Lemma np_linspace_unit_increasing (n : Z) (xp : list Q) :
  np_linspace 0 1 n true = Ok xp ->
  match xp with
  | [] => True
  | x0 :: rest => increasing_from x0 rest
  end.
Proof.
  unfold np_linspace. destruct (n <? 0)%Z eqn:En; [discriminate |].
  intros [= <-]. apply Z.ltb_ge in En.
  destruct (Z.to_nat n) as [| [| k]] eqn:Ek; simpl; try exact I.
  assert (Hstep : 0 < (1 - 0) / inject_Z (n - 1)).
  { apply Qlt_shift_div_l; [rewrite <- (Zlt_Qlt 0); lia | lra]. }
  split.
  - change (inject_Z (Z.of_nat 0)) with 0. change (inject_Z (Z.of_nat 1)) with 1.
    lra.
  - apply (affine_increasing 0 _ k Hstep 1%nat).
Qed.

Lemma match_points_in01 (self : option (list Q)) (n : Z) (s : list Q) :
  state_in01 self -> match_points self n = Ok s -> all_in01 s.
Proof.
  unfold match_points. intros Hself H.
  destruct self as [s0 |]; simpl in H; [| discriminate].
  destruct (negb _).
  - inv_bind H.
    eapply np_interp_in01; [| exact Hself | exact H].
    eapply np_linspace_unit_increasing. eassumption.
  - by injection H as <-.
Qed.

(** [draw] keeps the invariant: [Bar] and [FreqAmplitude] leave the state
    alone, the two circular variants interpolate it. *)
Lemma draw_keeps_in01 (K : Kernels) (v : variant)
    (self self' : option (list Q)) (p : BaseAudioProcessor)
    (kwargs : gmap string pyval) (im : Image) :
  state_in01 self ->
  draw (Visualizer := visualizer_of K v) self p kwargs = Ok (self', im) ->
  state_in01 self'.
Proof.
  intros Hself H. destruct v; simpl in H.
  - by apply Bar_draw_spec in H as (-> & _).
  - by apply FreqAmplitude_draw_spec in H as (-> & _).
  - apply Circular_draw_spec in H as (_ & n & s & _ & Hm & -> & _).
    eapply match_points_in01; eassumption.
  - apply CircleDeform_draw_spec in H as (_ & n & s & _ & Hm & -> & _).
    eapply match_points_in01; eassumption.
Qed.

Lemma modulate_kwargs_other (S : Type) (V : Visualizer S)
    (kwargs : gmap string pyval) (fv s : Q) (fp fm name : string) :
  name <> fp ->
  modulate_kwargs kwargs fv s fp fm !! name = kwargs !! name.
Proof.
  intros Hne. unfold modulate_kwargs.
  generalize get_modifiable_params as params. intros params.
  revert kwargs. induction params as [| a params IH]; intros kwargs; simpl;
    [reflexivity |].
  rewrite IH. destruct (kwargs !! a); [| reflexivity].
  case_bool_decide as Ha; [| reflexivity]. subst a.
  by apply lookup_insert_ne.
Qed.

(** Along the frame loop of [apply_effect], as long as the modulated
    parameter is not [smoothing] and [smoothing] lies in [0, 1], the state of
    every variant stays unset or within [0, 1]. *)
Lemma for_frames_in01 (K : Kernels) (v : variant) (p : BaseAudioProcessor)
    (strength : Q) (fp fm : string) (opt_feature : option (Z -> Q))
    (smoothing : Q) (indices : list Z) :
  KernelLaws K -> fp <> "smoothing"%string -> 0 <= smoothing <= 1 ->
  forall st st' log log',
  kw_num (ls_kwargs st) "smoothing" = Ok smoothing ->
  state_in01 (ls_self st) ->
  for_frames (frame_body (V := visualizer_of K v) p strength fp fm
                opt_feature) indices st log = (log', Ok st') ->
  state_in01 (ls_self st').
Proof.
  intros laws Hfp Hrange.
  induction indices as [| i rest IH]; intros st st' log log' Hs Hself H;
    simpl in H.
  - by injection H as _ <-.
  - destruct (frame_body p strength fp fm opt_feature st i log)
      as [log1 [st1 |]] eqn:Eb; [| by inversion H].
    pose proof (frame_body_ok _ _ _ _ _ _ _ _ _ _ Eb)
      as (_ & self1 & fv & im & Hg & Hkw & Hd & _).
    eapply IH; [| | exact H].
    + rewrite Hkw. destruct opt_feature as [f |]; [| exact Hs].
      unfold kw_num. rewrite modulate_kwargs_other by congruence. exact Hs.
    + eapply draw_keeps_in01; [| exact Hd].
      destruct (get_audio_data_in01 K v (ls_self st) self1 p i
                  (ls_kwargs st) smoothing fv laws Hself Hs Hrange Hg)
        as (state & -> & Hin).
      exact Hin.
Qed.

(** ** Every update is the smoothing law *)

Lemma log_normalize_length (K : Kernels) (s r : list Q) :
  log_normalize K s = Ok r -> length r = length s.
Proof.
  unfold log_normalize. intros H. inv_bind H. destruct (negb _).
  - unfold np_div_scalar in H. destruct (Qeq_bool _ 0); [discriminate |].
    injection H as <-. by rewrite !length_map.
  - injection H as <-. by rewrite length_map.
Qed.

Lemma Bar_data_length (K : Kernels) (p : BaseAudioProcessor) (i n : Z)
    (d : list Q) :
  KernelLaws K -> Bar_data K p i n = Ok d -> len d = n.
Proof.
  intros laws. unfold Bar_data. destruct (_ =? 0)%Z.
  - intros H. apply np_zeros_spec in H as [Hn ->].
    unfold len. rewrite length_replicate. lia.
  - intros H. inv_bind H. injection H as <-.
    match goal with
    | E : np_rfft_abs _ _ _ = Ok _ |- _ =>
        unfold np_rfft_abs in E; destruct (_ <? 1)%Z eqn:En;
          [discriminate |]; injection E as <-
    end.
    apply Z.ltb_ge in En.
    match goal with
    | E : log_normalize _ _ = Ok _ |- _ =>
        apply log_normalize_length in E as Hl
    end.
    rewrite (rfft_abs_length K laws) in Hl by lia.
    rewrite Z.div_mul in Hl by lia.
    rewrite py_slice_nonneg by lia. unfold len.
    rewrite length_take, length_drop. lia.
Qed.

(** Whenever [get_audio_data] returns, the new state is the smoothing update
    [smoothing * prev + (1 - smoothing) * data] of a previous state (the old
    one, or zeros) and a feature vector of the same length. *)
Lemma get_audio_data_smooths (K : Kernels) (v : variant)
    (self self' : option (list Q)) (p : BaseAudioProcessor) (i : Z)
    (kwargs : gmap string pyval) (fv : feature_result) :
  KernelLaws K ->
  get_audio_data (Visualizer := visualizer_of K v) self p i kwargs
    = Ok (self', fv) ->
  exists smoothing prev data,
    kw_num kwargs "smoothing" = Ok smoothing /\
    length prev = length data /\
    (prev = replicate (length data) 0 \/ self = Some prev) /\
    self' = Some (zip_with (fun s d => smoothing * s + (1 - smoothing) * d)
                           prev data).
Proof.
  intros laws H.
  assert (Hkey : forall n smoothing data prev state,
            len data = n -> init_state self n = Ok prev ->
            smooth_update smoothing prev data = Ok state ->
            length prev = length data /\
            (prev = replicate (length data) 0 \/ self = Some prev) /\
            state = zip_with (fun s d => smoothing * s + (1 - smoothing) * d)
                             prev data).
  { intros n smoothing data prev state Hd Hp Hu.
    apply init_state_spec in Hp as (Hn & Hl & Hor).
    assert (Hlen : length prev = length data) by (unfold len in *; lia).
    rewrite smooth_update_same_length in Hu by exact Hlen.
    injection Hu as <-. split; [exact Hlen |]. split; [| reflexivity].
    destruct Hor as [-> | ->]; [left | by right].
    f_equal. unfold len in *. lia. }
  assert (Hfin : forall n smoothing data prev state,
            kw_num kwargs "smoothing" = Ok smoothing ->
            len data = n -> init_state self n = Ok prev ->
            smooth_update smoothing prev data = Ok state ->
            exists smoothing prev data,
              kw_num kwargs "smoothing" = Ok smoothing /\
              length prev = length data /\
              (prev = replicate (length data) 0 \/ self = Some prev) /\
              Some state
              = Some (zip_with
                        (fun s d => smoothing * s + (1 - smoothing) * d)
                        prev data)).
  { intros n smoothing data prev state Hs Hd Hp Hu.
    destruct (Hkey _ _ _ _ _ Hd Hp Hu) as (H1 & H2 & ->).
    by exists smoothing, prev, data. }
  clear Hkey.
  destruct v; simpl in H;
    [unfold Bar_get_audio_data in H
    | unfold FreqAmplitude_get_audio_data in H
    | unfold Circular_get_audio_data in H
    | unfold CircleDeform_get_audio_data in H];
    inv_bind H; injection H as <- <-;
    (eapply Hfin; [reflexivity | | eassumption | eassumption]).
  - eapply Bar_data_length; eassumption.
  - reflexivity.
  - unfold Circular_data in *.
    match goal with
    | E : mbind _ _ = Ok _ |- _ => inv_bind E;
        by apply resample_bins_length in E as [_ E]
    end.
  - unfold CircleDeform_data in *.
    match goal with
    | E : mbind _ _ = Ok _ |- _ =>
        unfold mbind, result_bind in E;
        repeat match type of E with
          | context [match ?x with Ok _ => _ | Err _ => _ end] =>
              destruct x; try discriminate E
          end;
        by apply resample_bins_length in E as [_ E]
    end.
Qed.

(** * Further properties of the code *)

(** ** Frames of the audio *)

Lemma frame_window (p : BaseAudioProcessor) (i : Z) :
  0 <= frame_duration p -> (0 < sample_rate p)%Z -> (0 <= i)%Z ->
  (0 <= frame_start p i <= frame_start p (i + 1))%Z /\
  _get_audio_frame p i
  = take (Z.to_nat (frame_start p (i + 1) - frame_start p i))
         (drop (Z.to_nat (frame_start p i)) (audio p)).
Proof.
  intros Hfd Hsr Hi. unfold frame_start.
  assert (Hsr' : 0 < inject_Z (sample_rate p))
    by (rewrite <- (Zlt_Qlt 0); exact Hsr).
  assert (Hi' : 0 <= inject_Z i) by (rewrite <- (Zle_Qle 0); exact Hi).
  assert (Hi1 : inject_Z (i + 1) == inject_Z i + 1)
    by (rewrite inject_Z_plus; reflexivity).
  assert (Hfs : 0 <= frame_duration p * inject_Z (sample_rate p))
    by (apply Qmult_le_0_compat; lra).
  assert (Hlo0 : 0 <= inject_Z i * frame_duration p * inject_Z (sample_rate p)).
  { rewrite <- Qmult_assoc. apply Qmult_le_0_compat; lra. }
  assert (Hle : inject_Z i * frame_duration p * inject_Z (sample_rate p)
                <= inject_Z (i + 1) * frame_duration p
                   * inject_Z (sample_rate p)).
  { rewrite Hi1. lra. }
  assert (Hrange :
    (0 <= Qfloor (inject_Z i * frame_duration p * inject_Z (sample_rate p))
       <= Qfloor (inject_Z (i + 1) * frame_duration p
                  * inject_Z (sample_rate p)))%Z).
  { split; [change 0%Z with (Qfloor 0) |]; by apply Qfloor_resp_le. }
  split; [exact Hrange |].
  unfold _get_audio_frame. rewrite !py_int_floor by lra.
  by apply py_slice_nonneg.
Qed.

Lemma py_range_succ (n : nat) :
  py_range (Z.of_nat (Datatypes.S n))
  = py_range (Z.of_nat n) ++ [Z.of_nat n].
Proof.
  unfold py_range. rewrite !Nat2Z.id, seq_S, map_app. reflexivity.
Qed.

Lemma frames_concat (p : BaseAudioProcessor) (n : nat) :
  0 <= frame_duration p -> (0 < sample_rate p)%Z ->
  concat (map (_get_audio_frame p) (py_range (Z.of_nat n)))
  = take (Z.to_nat (frame_start p (Z.of_nat n))) (audio p).
Proof.
  intros Hfd Hsr. induction n as [| n IH].
  - simpl. unfold frame_start.
    replace (Qfloor _) with 0%Z; [by rewrite take_0 |].
    symmetry. change 0%Z with (Qfloor 0). apply Qfloor_comp. simpl. ring.
  - rewrite py_range_succ, map_app, concat_app, IH. simpl.
    rewrite app_nil_r.
    destruct (frame_window p (Z.of_nat n) Hfd Hsr ltac:(lia)) as [Hr ->].
    replace (Z.of_nat (Datatypes.S n)) with (Z.of_nat n + 1)%Z by lia.
    rewrite take_take_drop. f_equal. lia.
Qed.

(** X1.  The frames tile the audio: for a processor built by [__init__]
    (positive sample rate, frame count not negative), frame [i + 1] starts at
    the sample where frame [i] ends, and the frames [0 .. n-1] laid end to end
    are the first [floor(n * frame_duration * sample_rate)] samples of the
    audio: no sample is skipped and none is used twice. *)
Theorem frames_tile_audio (a : Audio) (nf h w : Z) (fr : Q)
    (p : BaseAudioProcessor) (n : Z) :
  BaseAudioProcessor_init a nf h w fr = Ok p ->
  (0 < audio_sample_rate a)%Z -> (0 <= nf)%Z -> (0 <= n)%Z ->
  concat (map (_get_audio_frame p) (py_range n))
  = take (Z.to_nat (frame_start p n)) (waveform_mono a).
Proof.
  intros Hinit Hsr Hnf Hn.
  destruct (init_frame_duration_nonneg _ _ _ _ _ _ Hinit Hsr Hnf)
    as (Haudio & Hrate & _ & _ & Hfd).
  rewrite <- Haudio. rewrite <- (Z2Nat.id n) by exact Hn.
  apply frames_concat; [exact Hfd | by rewrite Hrate].
Qed.

Lemma frames_tile_audio_witness :
  concat (map (_get_audio_frame processor_8) (py_range 2))
  = waveform_mono audio_8.
Proof.
  rewrite (frames_tile_audio audio_8 2 100 200 1 processor_8 2);
    [reflexivity | reflexivity | reflexivity | discriminate | discriminate].
Defined.

(** X2.  Every frame [apply_effect] processes lies inside the audio: with
    positive sample rate and frame rate and
    [num_frames = floor(audio_duration * frame_rate)], the window of each
    frame index [0 <= i < num_frames] ends at or before the last sample, so
    the frame is not truncated and has exactly
    [frame_start (i+1) - frame_start i] samples. *)
Theorem rendered_frames_are_whole (a : Audio) (h w : Z) (fr : Q)
    (p : BaseAudioProcessor) (i : Z) :
  (0 < audio_sample_rate a)%Z -> 0 < fr ->
  let nf := py_int (inject_Z (len (waveform_mono a))
                    / inject_Z (audio_sample_rate a) * fr) in
  BaseAudioProcessor_init a nf h w fr = Ok p ->
  (0 <= i < nf)%Z ->
  (frame_start p (i + 1) <= len (waveform_mono a))%Z /\
  len (_get_audio_frame p i) = (frame_start p (i + 1) - frame_start p i)%Z.
Proof.
  intros Hsr Hfr nf Hinit Hi.
  set (L := inject_Z (len (waveform_mono a))) in *.
  set (sr := inject_Z (audio_sample_rate a)) in *.
  assert (Hsr' : 0 < sr) by (unfold sr; rewrite <- (Zlt_Qlt 0); exact Hsr).
  assert (HL : 0 <= L) by (unfold L, len; rewrite <- (Zle_Qle 0); lia).
  assert (Hdur : 0 <= L / sr) by (by apply Qdiv_nonneg).
  assert (Hprod : 0 <= L / sr * fr) by (apply Qmult_le_0_compat; lra).
  assert (Hnf : inject_Z nf <= L / sr * fr).
  { unfold nf. rewrite py_int_floor by exact Hprod. apply Qfloor_le. }
  assert (Hnf0 : (0 <= nf)%Z) by lia.
  destruct (init_frame_duration_nonneg _ _ _ _ _ _ Hinit Hsr Hnf0)
    as (Haudio & Hrate & _ & Hfd & Hfd0).
  replace (Qlt_bool 0 fr) with true in Hfd
    by (symmetry; by apply Qlt_bool_iff).
  assert (Hsr2 : (0 < sample_rate p)%Z) by (by rewrite Hrate).
  destruct (frame_window p i Hfd0 Hsr2 ltac:(lia)) as [Hr Hframe].
  assert (Hend : (frame_start p (i + 1) <= len (waveform_mono a))%Z).
  { unfold frame_start. rewrite Hfd, Hrate. fold sr.
    rewrite <- (Qfloor_Z (len (waveform_mono a))). fold L.
    apply Qfloor_resp_le.
    assert (Hi1 : inject_Z (i + 1) <= inject_Z nf)
      by (rewrite <- Zle_Qle; lia).
    assert (Hk : inject_Z (i + 1) <= L / sr * fr) by lra.
    assert (Heq : inject_Z (i + 1) * (1 / fr) * sr
                  == inject_Z (i + 1) * (sr / fr)) by (field; lra).
    assert (HeqL : L == (L / sr * fr) * (sr / fr)) by (field; lra).
    rewrite Heq, HeqL. apply Qmult_le_compat_r; [exact Hk |].
    apply Qdiv_nonneg; lra. }
  split; [exact Hend |].
  rewrite Hframe. unfold len. rewrite length_take, length_drop, Haudio.
  unfold len in Hend. lia.
Qed.

Lemma rendered_frames_are_whole_witness :
  len (_get_audio_frame processor_8 1) = 4%Z.
Proof.
  destruct (rendered_frames_are_whole audio_8 100 200 1 processor_8 1)
    as [_ H];
    [reflexivity | reflexivity | reflexivity | split; discriminate + reflexivity |].
  rewrite H. reflexivity.
Defined.

(** ** [_normalize] *)

Lemma Qmin_spec (a b : Q) :
  Qmin a b <= a /\ Qmin a b <= b /\ (Qmin a b = a \/ Qmin a b = b).
Proof.
  unfold Qmin. destruct (Qle_bool a b) eqn:E.
  - apply Qle_bool_iff in E. repeat split; [lra | exact E | by left].
  - assert (~ a <= b) by (intros H; apply Qle_bool_iff in H; congruence).
    repeat split; [lra | lra | by right].
Qed.

Lemma foldl_Qmin_spec (rest : list Q) :
  forall a, foldl Qmin a rest <= a /\
            Forall (fun x => foldl Qmin a rest <= x) rest /\
            (foldl Qmin a rest = a \/ In (foldl Qmin a rest) rest).
Proof.
  induction rest as [| b rest IH]; intros a; simpl.
  - split; [lra |]. split; [constructor | by left].
  - destruct (IH (Qmin a b)) as (H1 & H2 & H3).
    destruct (Qmin_spec a b) as (Ha & Hb & Hab).
    split; [lra |]. split; [constructor; [lra | exact H2] |].
    destruct H3 as [H3 | H3]; [| by right; right].
    rewrite H3. destruct Hab as [-> | ->]; [by left | by right; left].
Qed.

Lemma np_min_spec (a : list Q) (m : Q) :
  np_min a = Ok m -> Forall (fun x => m <= x) a /\ In m a.
Proof.
  destruct a as [| x rest]; [discriminate |]. simpl. intros [= <-].
  destruct (foldl_Qmin_spec rest x) as (H1 & H2 & H3).
  split; [by constructor |]. destruct H3 as [-> | H3]; [by left | by right].
Qed.

(** X3.  [_normalize] raises [ValueError] on an empty array ([data.min()] of
    a zero-size array).  On an array whose entries are all equal it divides
    by zero (numpy then yields [nan] entries).  On any other array it returns
    an array of the same length with every entry in [0, 1], in which the
    minimum of the data has become 0 and the maximum 1. *)
Theorem normalize_range (data : list Q) :
  _normalize [] = Err ValueError /\
  forall lo hi,
    np_min data = Ok lo -> np_max data = Ok hi ->
    lo <= hi /\
    (lo == hi -> _normalize data = Err FloatingPointError) /\
    (~ lo == hi ->
     exists r,
       _normalize data = Ok r /\ length r = length data /\ all_in01 r /\
       Exists (fun x => x == 0) r /\ Exists (fun x => x == 1) r).
Proof.
  split; [reflexivity |]. intros lo hi Hlo Hhi.
  pose proof (np_min_spec _ _ Hlo) as [Hge Hinlo].
  pose proof (np_max_spec _ _ Hhi) as [Hle Hinhi].
  assert (Hlohi : lo <= hi).
  { rewrite Forall_forall in Hle. apply (Hle lo). by apply list_elem_of_In. }
  split; [exact Hlohi |].
  unfold _normalize. rewrite Hlo, Hhi. simpl. unfold np_div_scalar.
  split.
  - intros Heq. replace (Qeq_bool (hi - lo) 0) with true; [reflexivity |].
    symmetry. apply Qeq_bool_iff. lra.
  - intros Hne. replace (Qeq_bool (hi - lo) 0) with false
      by (symmetry; apply Qeq_bool_false; lra).
    eexists. split; [reflexivity |].
    assert (Hd : 0 < hi - lo) by lra.
    split; [by rewrite !length_map |]. split; [| split].
    + apply Forall_map, Forall_map. rewrite Forall_forall in Hge, Hle.
      apply Forall_forall. intros x Hx. specialize (Hge x Hx).
      specialize (Hle x Hx). simpl in Hge, Hle. split.
      * apply Qle_shift_div_l; [exact Hd | lra].
      * apply Qle_shift_div_r; [exact Hd | lra].
    + apply Exists_exists. exists ((lo - lo) / (hi - lo)). split.
      * apply list_elem_of_In, in_map_iff. exists (lo - lo).
        split; [reflexivity |]. apply in_map_iff. by exists lo.
      * unfold Qdiv. ring.
    + apply Exists_exists. exists ((hi - lo) / (hi - lo)). split.
      * apply list_elem_of_In, in_map_iff. exists (hi - lo).
        split; [reflexivity |]. apply in_map_iff. by exists hi.
      * field. lra.
Qed.

Lemma normalize_range_witness :
  _normalize [3; 3; 3] = Err FloatingPointError /\
  exists r, _normalize [2; 4; 3] = Ok r /\ all_in01 r.
Proof.
  split.
  - destruct (normalize_range [3; 3; 3]) as [_ H].
    destruct (H 3 3 eq_refl eq_refl) as (_ & H1 & _).
    apply H1. reflexivity.
  - destruct (normalize_range [2; 4; 3]) as [_ H].
    destruct (H 2 4 eq_refl eq_refl) as (_ & _ & H2).
    destruct H2 as (r & Hr & _ & Hin & _); [discriminate |].
    exists r. split; [exact Hr | exact Hin].
Defined.

(** ** [modulate_param] *)

(** X4.  For a base value that is not negative, a feature value in [0, 1]
    and a strength in [0, 1] (the declared range), relative mode keeps the
    parameter between half and one and a half times the base value, and any
    other mode string is the absolute mode: the result is
    [base * feature * strength], between 0 and the base value.  In
    particular absolute mode with strength 0 sets the parameter to 0, while
    relative mode with strength 0 leaves it unchanged. *)
Theorem modulate_param_range (name : string) (base : pyval)
    (feature strength : Q) (mode : string) :
  0 <= to_num base -> 0 <= feature <= 1 -> 0 <= strength <= 1 ->
  let r := to_num (modulate_param name base feature strength mode) in
  (mode = "relative"%string ->
   to_num base * (1 # 2) <= r <= to_num base * (3 # 2) /\
   (strength == 0 -> r == to_num base)) /\
  (mode <> "relative"%string ->
   r = to_num base * feature * strength /\ 0 <= r <= to_num base /\
   (strength == 0 -> r == 0)).
Proof.
  intros Hb Hf Hs r. unfold r, modulate_param. split; intros Hm.
  - rewrite bool_decide_eq_true_2 by exact Hm. cbn [to_num].
    set (b := to_num base) in *.
    assert (Hk : - (1 # 2) <= (feature - (1 # 2)) * strength <= 1 # 2)
      by nra.
    split; [nra |]. intros H0. rewrite H0. ring.
  - rewrite bool_decide_eq_false_2 by exact Hm. cbn [to_num].
    set (b := to_num base) in *.
    split; [reflexivity |]. split.
    + assert (0 <= feature * strength <= 1) by nra. nra.
    + intros H0. rewrite H0. ring.
Qed.

Lemma modulate_param_range_witness :
  to_num (modulate_param "radius" (VFloat 200) (1 # 4) 1 "Relative")
  = 200 * (1 # 4) * 1.
Proof.
  destruct (modulate_param_range "radius" (VFloat 200) (1 # 4) 1 "Relative"
              ltac:(vm_compute; discriminate)
              ltac:(split; vm_compute; discriminate)
              ltac:(split; vm_compute; discriminate)) as [_ H].
  destruct H as (H & _); [discriminate | exact H].
Defined.

(** ** Modulation inside the frame loop *)

(** X5.  A frame of [apply_effect] changes no entry of [kwargs] other than
    the one named [feature_param]; and it changes none at all when there is
    no feature source, when [feature_param] is not a modifiable parameter of
    the variant, or when it names no entry of [kwargs] (the choice ["None"]
    of every variant). *)
Theorem only_feature_param_changes (K : Kernels) (v : variant)
    (p : BaseAudioProcessor) (strength : Q) (feature_param feature_mode : string)
    (opt_feature : option (Z -> Q)) (st st' : loop_state (option (list Q)))
    (i : Z) (log log' : list event) :
  frame_body (V := visualizer_of K v) p strength feature_param feature_mode
    opt_feature st i log = (log', Ok st') ->
  (forall name, name <> feature_param ->
     ls_kwargs st' !! name = ls_kwargs st !! name) /\
  (opt_feature = None \/
   feature_param ∉ get_modifiable_params (Visualizer := visualizer_of K v) \/
   ls_kwargs st !! feature_param = None ->
   ls_kwargs st' = ls_kwargs st).
Proof.
  intros H.
  apply frame_body_ok in H as (_ & self1 & fv & im & _ & Hkw & _ & _).
  rewrite Hkw. split.
  - intros name Hne. destruct opt_feature; [| reflexivity].
    by apply modulate_kwargs_other.
  - intros Hor. destruct opt_feature as [f |]; [| reflexivity].
    destruct Hor as [Hnone | Hor]; [discriminate |].
    by apply modulate_kwargs_unchanged.
Qed.

Lemma only_feature_param_changes_witness :
  exists log' st',
    frame_body (V := visualizer_of test_kernels VariantBar) processor_8 1
      "None" "relative" (Some (fun _ => 1)) (mkLoop None kwargs_bar []) 0 []
    = (log', Ok st')
    /\ ls_kwargs st' = kwargs_bar.
Proof.
  destruct (frame_body (V := visualizer_of test_kernels VariantBar)
              processor_8 1 "None" "relative" (Some (fun _ => 1))
              (mkLoop None kwargs_bar []) 0 [])
    as [log' [st' |]] eqn:E; [| vm_compute in E; discriminate].
  exists log', st'. split; [reflexivity |].
  destruct (only_feature_param_changes _ _ _ _ _ _ _ _ _ _ _ _ E) as [_ H].
  apply H. right. right. vm_compute. reflexivity.
Defined.

Lemma size_param_modifiable (K : Kernels) (v : variant) :
  size_param v ∈ get_modifiable_params (Visualizer := visualizer_of K v).
Proof.
  destruct v; simpl; apply list_elem_of_In; simpl; tauto.
Qed.

Lemma get_audio_data_float_size (K : Kernels) (v : variant)
    (self : option (list Q)) (p : BaseAudioProcessor) (i : Z)
    (kwargs : gmap string pyval) (q : Q) :
  kwargs !! size_param v = Some (VFloat q) ->
  get_audio_data (Visualizer := visualizer_of K v) self p i kwargs
  = Err TypeError.
Proof.
  intros H.
  destruct v; simpl in *;
    [unfold Bar_get_audio_data | unfold FreqAmplitude_get_audio_data
    | unfold Circular_get_audio_data | unfold CircleDeform_get_audio_data];
    unfold kw_index; by rewrite H.
Qed.

(** X6.  Modulating the parameter that numpy needs as an integer
    ([num_bars] of [Bar], [fft_size] of the other variants) stops the run at
    the second frame: [modulate_param] returns a float, so after the first
    frame has been drawn the next [get_audio_data] raises [TypeError].  With
    a feature source and two or more frames the loop therefore never
    completes. *)
Theorem size_param_modulation_raises (K : Kernels) (v : variant)
    (p : BaseAudioProcessor) (strength : Q) (feature_mode : string)
    (f : Z -> Q) (st : loop_state (option (list Q))) (i j : Z)
    (rest : list Z) (log : list event) :
  is_Some (ls_kwargs st !! size_param v) ->
  (forall log1 st1,
     frame_body (V := visualizer_of K v) p strength (size_param v)
       feature_mode (Some f) st i log = (log1, Ok st1) ->
     frame_body (V := visualizer_of K v) p strength (size_param v)
       feature_mode (Some f) st1 j log1
     = (log1 ++ [ev_get_audio_data j], Err TypeError)) /\
  (forall log' r,
     for_frames
       (frame_body (V := visualizer_of K v) p strength (size_param v)
          feature_mode (Some f)) (i :: j :: rest) st log = (log', r) ->
     is_ok r = false).
Proof.
  intros [base Hbase].
  assert (Hstep : forall log1 st1,
    frame_body (V := visualizer_of K v) p strength (size_param v)
      feature_mode (Some f) st i log = (log1, Ok st1) ->
    frame_body (V := visualizer_of K v) p strength (size_param v)
      feature_mode (Some f) st1 j log1
    = (log1 ++ [ev_get_audio_data j], Err TypeError)).
  { intros log1 st1 H.
    apply frame_body_ok in H as (_ & self1 & fv & im & _ & Hkw & _ & _).
    rewrite (modulate_kwargs_overwrites (V := visualizer_of K v) _ _ _ _ _
               base (modifiable_params_NoDup K v) (size_param_modifiable K v)
               Hbase) in Hkw.
    assert (Hq : exists q, ls_kwargs st1 !! size_param v = Some (VFloat q)).
    { rewrite Hkw. unfold modulate_param.
      destruct (bool_decide _); eexists; apply lookup_insert_eq. }
    destruct Hq as [q Hq].
    pose proof (get_audio_data_float_size K v (ls_self st1) p j _ q Hq) as Hg.
    unfold frame_body. by rewrite Hg. }
  split; [exact Hstep |].
  intros log' r H. simpl in H.
  destruct (frame_body p strength (size_param v) feature_mode (Some f) st i
              log) as [log1 [st1 |]] eqn:E1.
  - rewrite (Hstep _ _ eq_refl) in H. by injection H as _ <-.
  - by injection H as _ <-.
Qed.

Lemma size_param_modulation_raises_witness :
  snd (for_frames
         (frame_body (V := visualizer_of test_kernels VariantBar) processor_8
            1 "num_bars" "relative" (Some (fun _ => 1)))
         [0; 1]%Z (mkLoop None kwargs_bar []) [])
  = Err TypeError.
Proof.
  destruct (size_param_modulation_raises test_kernels VariantBar processor_8
              1 "relative" (fun _ => 1) (mkLoop None kwargs_bar []) 0 1 []
              []) as [_ H]; [vm_compute; eauto |].
  destruct (for_frames _ _ _ _) as [log' r] eqn:E.
  specialize (H _ _ eq_refl). destruct r as [st' | e]; [discriminate |].
  vm_compute in E. by injection E as _ <-.
Defined.

(** ** What the circular variants draw *)

Lemma foldl_calls {A} (f : Image -> A -> Image) (g : A -> draw_call)
    (l : list A) :
  (forall im a, img_calls (f im a) = img_calls im ++ [g a]) ->
  forall im, img_calls (foldl f im l) = img_calls im ++ map g l.
Proof.
  intros Hf. induction l as [| a l IH]; intros im; simpl.
  - by rewrite app_nil_r.
  - rewrite IH, Hf, <- app_assoc. reflexivity.
Qed.

Lemma circle_angles_length (K : Kernels) (n : Z) (rotation : Q)
    (angles : list Q) :
  circle_angles K n rotation = Ok angles ->
  (0 <= n)%Z /\ length angles = Z.to_nat n.
Proof.
  unfold circle_angles. intros H. inv_bind H. injection H as <-.
  rewrite length_map. eapply np_linspace_length. eassumption.
Qed.

(** X7.  When [FlexAudioVisualizerCircular.draw] returns, the image holds
    exactly [round(num_points)] drawing calls, every one a [cv2.line] of the
    configured [line_width]: one radial line for each point of the circle,
    and nothing else (the rotation only shifts the angles). *)
Theorem Circular_draw_lines (K : Kernels) (self self' : option (list Q))
    (p : BaseAudioProcessor) (kwargs : gmap string pyval) (im : Image) :
  Circular_draw K self p kwargs = Ok (self', im) ->
  exists num_points line_width,
    kw_round kwargs "num_points" = Ok num_points /\
    kw_num kwargs "line_width" = Ok line_width /\
    (0 <= num_points)%Z /\
    length (img_calls im) = Z.to_nat num_points /\
    Forall (is_line line_width) (img_calls im).
Proof.
  unfold Circular_draw. intros H. inv_bind H. injection H as <- <-.
  match goal with
  | Ez : np_zeros_image _ _ = Ok ?im0,
    Ea : circle_angles _ ?n _ = Ok ?angles,
    Em : match_points _ ?n = Ok ?spectrum |- _ =>
      apply np_zeros_image_calls in Ez;
      apply circle_angles_length in Ea as [Hn Hla];
      apply match_points_length in Em
  end.
  eexists _, _. split; [reflexivity |]. split; [reflexivity |].
  split; [exact Hn |].
  match goal with
  | |- context [foldl ?f ?im0 ?l] =>
      pose proof (foldl_calls f
        (fun '(angle, amplitude) =>
           cv2_line
             (py_int (inject_Z (width p) / 2 + a0 * cos K angle),
              py_int (inject_Z (height p) / 2 + a0 * sin K angle))
             (py_int (inject_Z (width p) / 2
                      + (a0 + amplitude * a0) * cos K angle),
              py_int (inject_Z (height p) / 2
                      + (a0 + amplitude * a0) * sin K angle)) a1) l
        ltac:(by intros im1 [angle amplitude]) im0) as Hcalls
  end.
  rewrite Hcalls. match goal with Ez : img_calls _ = [] |- _ => rewrite Ez end.
  simpl. split.
  - rewrite length_map, length_zip. unfold len in *. lia.
  - apply Forall_map, Forall_forall. by intros [angle amplitude] _.
Qed.

Lemma Circular_draw_lines_witness :
  exists self' im,
    Circular_draw test_kernels (Some [0; 1 # 2; 1]) processor_8 kwargs_circle
    = Ok (self', im)
    /\ length (img_calls im) = 4%nat.
Proof.
  destruct (Circular_draw test_kernels (Some [0; 1 # 2; 1]) processor_8
              kwargs_circle) as [[self' im] |] eqn:E;
    [| vm_compute in E; discriminate].
  destruct (Circular_draw_lines _ _ _ _ _ _ E)
    as (n & lw & Hn & _ & _ & Hlen & _).
  exists self', im. split; [reflexivity |].
  vm_compute in Hn. injection Hn as <-. exact Hlen.
Defined.

Lemma np_zip_same_length (f : Q -> Q -> Q) (a b r : list Q) :
  length a = length b -> np_zip f a b = Ok r -> r = zip_with f a b.
Proof.
  intros Hlen. unfold np_zip. rewrite Hlen, Nat.eqb_refl. by intros [= <-].
Qed.

(** X8.  When [FlexAudioVisualizerCircleDeform.draw] returns, it has drawn
    one closed polyline through exactly [round(num_points)] points with the
    configured [line_width] if there are more than two points, and nothing
    at all otherwise. *)
Theorem CircleDeform_draw_polyline (K : Kernels)
    (self self' : option (list Q)) (p : BaseAudioProcessor)
    (kwargs : gmap string pyval) (im : Image) :
  CircleDeform_draw K self p kwargs = Ok (self', im) ->
  exists num_points line_width,
    kw_round kwargs "num_points" = Ok num_points /\
    kw_num kwargs "line_width" = Ok line_width /\
    if (2 <? num_points)%Z
    then exists points,
           img_calls im = [cv2_polylines points true line_width] /\
           len points = num_points
    else img_calls im = [].
Proof.
  unfold CircleDeform_draw. intros H. inv_bind H. injection H as <- <-.
  match goal with
  | Ez : np_zeros_image _ _ = Ok ?im0,
    Ea : circle_angles _ ?n _ = Ok ?angles,
    Em : match_points _ ?n = Ok ?spectrum,
    Ex : np_mul _ (map (cos K) _) = Ok ?xs,
    Ey : np_mul _ (map (sin K) _) = Ok ?ys |- _ =>
      apply np_zeros_image_calls in Ez;
      apply circle_angles_length in Ea as [Hn Hla];
      apply match_points_length in Em;
      apply np_zip_same_length in Ex;
        [| rewrite !length_map; unfold len in *; lia];
      apply np_zip_same_length in Ey;
        [| rewrite !length_map; unfold len in *; lia];
      assert (Hpts : len (int_points (map (fun v => inject_Z (width p) / 2 + v) xs)
                            (map (fun v => inject_Z (height p) / 2 + v) ys))
                     = n)
  end.
  { subst. unfold int_points, len in *.
    rewrite length_zip_with, !length_map, !length_zip_with, !length_map.
    lia. }
  eexists _, _. split; [reflexivity |]. split; [reflexivity |].
  rewrite Hpts.
  match goal with Ez : img_calls _ = [] |- _ => rename Ez into Hz end.
  destruct (2 <? _)%Z.
  - eexists. simpl. rewrite Hz. split; [reflexivity | exact Hpts].
  - exact Hz.
Qed.

Lemma CircleDeform_draw_polyline_witness :
  exists self' im points,
    CircleDeform_draw test_kernels (Some [0; 1 # 2; 1]) processor_8
      kwargs_circle = Ok (self', im)
    /\ img_calls im = [cv2_polylines points true 2]
    /\ length points = 4%nat.
Proof.
  destruct (CircleDeform_draw test_kernels (Some [0; 1 # 2; 1]) processor_8
              kwargs_circle) as [[self' im] |] eqn:E;
    [| vm_compute in E; discriminate].
  destruct (CircleDeform_draw_polyline _ _ _ _ _ _ E)
    as (n & lw & Hn & Hlw & H).
  vm_compute in Hn. injection Hn as <-.
  vm_compute in Hlw. injection Hlw as <-.
  destruct H as (points & Hc & Hl).
  exists self', im, points. split; [reflexivity |].
  split; [exact Hc |]. unfold len in Hl. lia.
Defined.

(** ** Resampling *)

Lemma interp_from_grid (ys : list Q) :
  forall (a k : nat) (y0 v y : Q),
  v == inject_Z (Z.of_nat (a + k)) ->
  (y0 :: ys) !! k = Some y ->
  interp_from v (inject_Z (Z.of_nat a)) y0
    (zip (map (fun i => inject_Z (Z.of_nat i))
              (seq (Datatypes.S a) (length ys))) ys) == y.
Proof.
  induction ys as [| y1 ys IH]; intros a k y0 v y Hv Hk.
  - destruct k; simpl in Hk; [| discriminate].
    injection Hk as <-. reflexivity.
  - cbn [length seq map zip zip_with interp_from].
    destruct k as [| k].
    + injection Hk as <-. rewrite Nat.add_0_r in Hv.
      replace (Qlt_bool v (inject_Z (Z.of_nat (Datatypes.S a)))) with true.
      * rewrite Hv. unfold Qdiv. ring.
      * symmetry. apply Qlt_bool_iff. rewrite Hv, <- Zlt_Qlt. lia.
    + replace (Qlt_bool v (inject_Z (Z.of_nat (Datatypes.S a)))) with false.
      * apply (IH (Datatypes.S a) k); [| exact Hk].
        rewrite Hv. by replace (Datatypes.S a + k)%nat
                         with (a + Datatypes.S k)%nat by lia.
      * symmetry. apply not_true_iff_false. intros Hlt.
        apply Qlt_bool_iff in Hlt. rewrite Hv, <- Zlt_Qlt in Hlt. lia.
Qed.

Lemma np_linspace_open (start stop : Q) (n : Z) :
  (0 <= n)%Z ->
  np_linspace start stop n false
  = Ok (map (fun i => start + inject_Z (Z.of_nat i)
                              * ((stop - start) / inject_Z n))
            (seq 0 (Z.to_nat n))).
Proof.
  intros Hn. unfold np_linspace.
  by replace (n <? 0)%Z with false by (symmetry; apply Z.ltb_ge; lia).
Qed.

Lemma np_interp_cons (x xp fp : list Q) (x0 y0 : Q) :
  length xp = length fp ->
  np_interp x (x0 :: xp) (y0 :: fp)
  = Ok (map (fun v => if Qle_bool v x0 then y0
                      else interp_from v x0 y0 (zip xp fp)) x).
Proof.
  intros Hlen. unfold np_interp. simpl. by rewrite Hlen, Nat.eqb_refl.
Qed.

(** X9.  Resampling a spectrum to its own length changes nothing: when
    [num_points] equals the number of bins, the interpolation points of
    [get_audio_data] are the bin indices themselves and [data] is the
    spectrum, entry for entry. *)
Theorem resample_same_length (spectrum : list Q) :
  spectrum <> [] ->
  exists data,
    resample_bins spectrum (len spectrum) = Ok data /\
    Forall2 Qeq data spectrum.
Proof.
  intros Hne. unfold resample_bins.
  rewrite np_linspace_open by (unfold len; lia).
  set (L := inject_Z (len spectrum)).
  assert (HL : 0 < L).
  { unfold L, len. rewrite <- (Zlt_Qlt 0). destruct spectrum; [done |].
    simpl. lia. }
  unfold len. rewrite Nat2Z.id.
  remember (map (fun i => 0 + inject_Z (Z.of_nat i) * ((L - 0) / L))
                (seq 0 (length spectrum))) as xs eqn:Hxs.
  simpl. destruct spectrum as [| y0 ys]; [done |].
  unfold np_arange. cbn [length seq map].
  rewrite np_interp_cons by (by rewrite length_map, length_seq).
  eexists. split; [reflexivity |].
  apply Forall2_same_length_lookup_2.
  { rewrite Hxs, !length_map, length_seq. reflexivity. }
  intros k x y Hx Hy. rewrite Hxs in Hx.
  rewrite !list_lookup_fmap in Hx.
  destruct (seq 0 (length (y0 :: ys)) !! k) as [i |] eqn:Ei;
    [| discriminate].
  apply lookup_seq in Ei as [-> Hlt]. simpl in Hx. injection Hx as <-.
  assert (Hv : 0 + inject_Z (Z.of_nat k) * ((L - 0) / L)
               == inject_Z (Z.of_nat (0 + k))).
  { simpl. field. lra. }
  destruct (Qle_bool _ (inject_Z (Z.of_nat 0))) eqn:Ele.
  - apply Qle_bool_iff in Ele. rewrite Hv in Ele.
    rewrite <- Zle_Qle in Ele. assert (k = 0%nat) by lia. subst k.
    by injection Hy as <-.
  - by apply (interp_from_grid ys 0 k).
Qed.

Lemma resample_same_length_witness :
  exists data,
    resample_bins [1 # 4; 1; 1 # 2] 3 = Ok data /\
    Forall2 Qeq data [1 # 4; 1; 1 # 2].
Proof.
  apply (resample_same_length [1 # 4; 1; 1 # 2]). discriminate.
Defined.

Lemma np_linspace_closed (start stop : Q) (n : Z) :
  (0 <= n)%Z ->
  np_linspace start stop n true
  = Ok (map (fun i => start + inject_Z (Z.of_nat i)
                              * ((stop - start) / inject_Z (n - 1)))
            (seq 0 (Z.to_nat n))).
Proof.
  intros Hn. unfold np_linspace.
  by replace (n <? 0)%Z with false by (symmetry; apply Z.ltb_ge; lia).
Qed.

Lemma List_last_cons (y d : Q) (l : list Q) :
  List.last (y :: l) d = List.last l y.
Proof.
  revert y d. induction l as [| z l IH]; intros y d; [reflexivity |].
  change (List.last (y :: z :: l) d) with (List.last (z :: l) d).
  by rewrite !IH.
Qed.

Lemma interp_from_beyond (v : Q) (pts : list (Q * Q)) :
  forall x0 y0,
  Forall (fun pt => fst pt <= v) pts ->
  interp_from v x0 y0 pts = List.last (map snd pts) y0.
Proof.
  induction pts as [| [x1 y1] rest IH]; intros x0 y0 Hall; [reflexivity |].
  apply Forall_cons in Hall as [Hx Hrest]. simpl in Hx.
  cbn [interp_from].
  replace (Qlt_bool v x1) with false.
  - rewrite IH by exact Hrest. cbn [map snd]. by rewrite List_last_cons.
  - symmetry. apply not_true_iff_false. intros Hlt.
    apply Qlt_bool_iff in Hlt. lra.
Qed.

Lemma last_cons_default (y0 : Q) (ys : list Q) :
  last (y0 :: ys) = Some (List.last ys y0).
Proof.
  revert y0. induction ys as [| y ys IH]; intros y0; [reflexivity |].
  rewrite last_cons_cons, IH. by rewrite List_last_cons.
Qed.

Lemma zip_snd_same_length (xp fp : list Q) :
  length xp = length fp -> map snd (zip xp fp) = fp.
Proof.
  revert fp. induction xp as [| x xp IH]; intros [| y fp] Hlen;
    simpl in *; try discriminate; [reflexivity |].
  f_equal. apply IH. lia.
Qed.

(** X10.  When [draw] of a circular variant has to resample the state (its
    length differs from [num_points], and there are at least two points),
    the interpolation runs over [linspace(0, 1, ...)] with both ends
    included, so the first and the last entry of the state are kept as they
    are; only the entries between them are interpolated. *)
Theorem draw_resample_keeps_ends (state resampled : list Q)
    (num_points : Z) :
  match_points (Some state) num_points = Ok resampled ->
  len state <> num_points -> (2 <= num_points)%Z ->
  head resampled = head state /\ last resampled = last state.
Proof.
  unfold match_points. intros H Hne Hn. simpl in H.
  replace (negb (len state =? num_points)%Z) with true in H
    by (symmetry; apply negb_true_iff, Z.eqb_neq, Hne).
  rewrite !np_linspace_closed in H by (unfold len; lia). simpl in H.
  destruct state as [| y0 ys].
  { unfold np_interp in H. simpl in H. discriminate. }
  unfold len in H. rewrite Nat2Z.id in H.
  remember (map (fun i => 0 + inject_Z (Z.of_nat i)
                              * ((1 - 0) / inject_Z (num_points - 1)))
                (seq 0 (Z.to_nat num_points))) as xs eqn:Hxs.
  set (step := (1 - 0) / inject_Z (Z.of_nat (length (y0 :: ys)) - 1)) in H.
  cbn [length seq map] in H.
  rewrite np_interp_cons in H by (by rewrite length_map, length_seq).
  injection H as <-.
  assert (Hsteps : 0 < (1 - 0) / inject_Z (num_points - 1)).
  { apply Qlt_shift_div_l; [rewrite <- (Zlt_Qlt 0); lia | lra]. }
  destruct (Z.to_nat num_points) as [| [| m]] eqn:Em; try lia.
  assert (Hm : inject_Z (num_points - 1)
               == inject_Z (Z.of_nat (Datatypes.S m))).
  { apply inject_Z_injective. lia. }
  split.
  - rewrite Hxs. cbn [seq map head].
    replace (Qle_bool _ _) with true; [reflexivity |].
    symmetry. apply Qle_bool_iff.
    change (inject_Z (Z.of_nat 0)) with 0. lra.
  - rewrite last_cons_default.
    set (F := fun v => if Qle_bool v (0 + inject_Z (Z.of_nat 0) * step)
                       then y0 else interp_from v _ y0 _).
    assert (Hlast : last (map F xs)
                    = Some (F (0 + inject_Z (Z.of_nat (Datatypes.S m))
                                   * ((1 - 0) / inject_Z (num_points - 1))))).
    { rewrite Hxs, seq_S, !map_app. cbn [map]. by rewrite last_snoc. }
    rewrite Hlast. f_equal. unfold F.
    set (v := 0 + inject_Z (Z.of_nat (Datatypes.S m))
                  * ((1 - 0) / inject_Z (num_points - 1))).
    assert (Hv : v == 1).
    { unfold v. rewrite Hm. field.
      intros H0. assert (0 < inject_Z (Z.of_nat (Datatypes.S m)))
        by (rewrite <- (Zlt_Qlt 0); lia). lra. }
    replace (Qle_bool v _) with false.
    + rewrite interp_from_beyond.
      * by rewrite zip_snd_same_length by (by rewrite length_map, length_seq).
      * apply Forall_forall. intros [x y] Hin.
        apply list_elem_of_In, in_combine_l in Hin.
        apply in_map_iff in Hin as (j & <- & Hj). apply in_seq in Hj.
        simpl. rewrite Hv. unfold step.
        set (d := inject_Z (Z.of_nat (length (y0 :: ys)) - 1)).
        assert (Hd : 0 < d).
        { unfold d. rewrite <- (Zlt_Qlt 0). simpl length. lia. }
        assert (Hjd : inject_Z (Z.of_nat j) <= d).
        { unfold d. rewrite <- Zle_Qle. simpl length. lia. }
        assert (Heq : 0 + inject_Z (Z.of_nat j) * ((1 - 0) / d)
                      == inject_Z (Z.of_nat j) / d) by (field; lra).
        rewrite Heq. apply Qle_shift_div_r; [exact Hd | lra].
    + symmetry. apply not_true_iff_false. intros Hle.
      apply Qle_bool_iff in Hle. rewrite Hv in Hle.
      change (inject_Z (Z.of_nat 0)) with 0 in Hle. lra.
Qed.

Lemma draw_resample_keeps_ends_witness :
  exists resampled,
    match_points (Some [0; 1 # 2; 1]) 4 = Ok resampled /\
    head resampled = Some 0 /\ last resampled = Some 1.
Proof.
  destruct (match_points (Some [0; 1 # 2; 1]) 4) as [r |] eqn:E;
    [| vm_compute in E; discriminate].
  destruct (draw_resample_keeps_ends _ _ _ E) as [Hh Hl];
    [discriminate | discriminate |].
  exists r. split; [reflexivity |]. split; [exact Hh | exact Hl].
Defined.

(** ** Normalisation *)

(** X11.  The normalised spectrum of [FreqAmplitude] peaks at exactly 1
    unless it is entirely zero: every entry lies in [0, 1], and either all
    entries are 0 (the maximum was 0 and the division was skipped) or some
    entry equals 1 (the maximum, divided by itself). *)
Theorem normalized_spectrum_peak (K : Kernels) (p : BaseAudioProcessor)
    (i fft_size : Z) (kwargs : gmap string pyval) (d : list Q) :
  KernelLaws K ->
  FreqAmplitude_data K p i fft_size kwargs = Ok d ->
  all_in01 d /\ (all_zero d \/ Exists (fun x => x == 1) d).
Proof.
  intros laws H.
  split; [by eapply FreqAmplitude_data_in01 |].
  unfold FreqAmplitude_data in H. inv_bind H.
  match goal with
  | E : band_spectrum _ _ _ _ _ = Ok ?s |- _ =>
      apply (band_spectrum_nonneg K laws) in E;
      apply (map_log1p_nonneg K laws) in E; rename E into Hnn
  end.
  unfold log_normalize in H. inv_bind H.
  match goal with
  | E : np_max _ = Ok ?m |- _ => apply np_max_spec in E as [Hle Hin]
  end.
  destruct (negb _) eqn:Em.
  - right. unfold np_div_scalar in H.
    apply negb_true_iff in Em. rewrite Em in H. injection H as <-.
    apply Qeq_bool_false in Em.
    apply Exists_exists. eexists. split.
    + apply list_elem_of_In, in_map_iff. eexists. split; [reflexivity |].
      exact Hin.
    + simpl. field. exact Em.
  - left. injection H as <-. apply negb_false_iff, Qeq_bool_iff in Em.
    unfold all_zero. rewrite Forall_forall in Hnn, Hle.
    apply Forall_forall. intros x Hx. specialize (Hnn x Hx).
    specialize (Hle x Hx). simpl in Hnn, Hle. lra.
Qed.

Lemma normalized_spectrum_peak_witness :
  exists d,
    FreqAmplitude_data test_kernels processor_8 0 2 kwargs_circle = Ok d /\
    all_in01 d.
Proof.
  destruct (FreqAmplitude_data test_kernels processor_8 0 2 kwargs_circle)
    as [d |] eqn:E; [| vm_compute in E; discriminate].
  exists d. split; [reflexivity |].
  apply (normalized_spectrum_peak _ _ _ _ _ _ test_kernels_laws E).
Defined.

(** ** The value [get_audio_data] returns *)

Lemma sum_in01 (a : list Q) :
  all_in01 a -> 0 <= foldr Qplus 0 a <= inject_Z (len a).
Proof.
  unfold len. induction 1 as [| x a Hx Ha IH]; simpl length.
  - cbn [foldr]. change (inject_Z (Z.of_nat 0)) with 0. lra.
  - cbn [foldr]. rewrite Nat2Z.inj_succ. unfold Z.succ.
    rewrite inject_Z_plus. change (inject_Z 1) with 1. lra.
Qed.

Lemma np_mean_in01 (a : list Q) :
  all_in01 a ->
  match np_mean a with
  | RFloat q => 0 <= q <= 1
  | RNan => a = []
  | RNone => False
  end.
Proof.
  intros Ha. destruct a as [| x a]; [reflexivity |].
  pose proof (sum_in01 _ Ha) as Hs. unfold np_mean.
  set (L := inject_Z (len (x :: a))) in *.
  assert (HL : 0 < L).
  { unfold L, len. rewrite <- (Zlt_Qlt 0). simpl. lia. }
  split.
  - apply Qle_shift_div_l; [exact HL | lra].
  - apply Qle_shift_div_r; [exact HL | lra].
Qed.

(** X12.  The value [get_audio_data] returns (and [apply_effect] discards):
    [FreqAmplitude] returns [None]; the other variants return the mean of the
    new state, which lies in [0, 1] whenever the smoothing factor does and
    the previous state was unset or within [0, 1], and is [nan] only if the
    state has no entry. *)
Theorem feature_value_range (K : Kernels) (v : variant)
    (self self' : option (list Q)) (p : BaseAudioProcessor) (i : Z)
    (kwargs : gmap string pyval) (smoothing : Q) (fv : feature_result) :
  KernelLaws K -> state_in01 self ->
  kw_num kwargs "smoothing" = Ok smoothing -> 0 <= smoothing <= 1 ->
  get_audio_data (Visualizer := visualizer_of K v) self p i kwargs
    = Ok (self', fv) ->
  match fv with
  | RNone => v = VariantFreqAmplitude
  | RFloat q => v <> VariantFreqAmplitude /\ 0 <= q <= 1
  | RNan => v <> VariantFreqAmplitude /\ self' = Some []
  end.
Proof.
  intros laws Hself Hs Hrange H.
  destruct (get_audio_data_in01 K v self self' p i kwargs smoothing fv laws
              Hself Hs Hrange H) as (state & -> & Hin).
  pose proof (np_mean_in01 state Hin) as Hmean.
  destruct v; simpl in H;
    [unfold Bar_get_audio_data in H
    | unfold FreqAmplitude_get_audio_data in H
    | unfold Circular_get_audio_data in H
    | unfold CircleDeform_get_audio_data in H];
    inv_bind H; injection H as -> <-; try reflexivity;
    destruct (np_mean state); try done; by subst.
Qed.

Lemma feature_value_range_witness :
  exists self' q,
    get_audio_data (Visualizer := visualizer_of test_kernels VariantBar)
      None processor_8 0 kwargs_bar = Ok (self', RFloat q)
    /\ 0 <= q <= 1.
Proof.
  destruct (get_audio_data (Visualizer := visualizer_of test_kernels VariantBar)
              None processor_8 0 kwargs_bar) as [[self' fv] |] eqn:E;
    [| vm_compute in E; discriminate].
  pose proof (feature_value_range test_kernels VariantBar None self'
                processor_8 0 kwargs_bar (1 # 2) fv test_kernels_laws I
                eq_refl ltac:(split; vm_compute; discriminate) E) as H.
  destruct fv as [| q |].
  - discriminate.
  - exists self', q. split; [reflexivity | apply H].
  - destruct H as [_ ->]. vm_compute in E. discriminate.
Defined.

(** ** What [Bar] and [FreqAmplitude] draw *)

Lemma py_mod_range (a b : Q) : 0 < b -> 0 <= py_mod a b < b.
Proof.
  intros Hb. unfold py_mod.
  pose proof (Qfloor_le (a / b)) as H1.
  pose proof (Qlt_floor (a / b)) as H2.
  rewrite inject_Z_plus in H2. change (inject_Z 1) with 1 in H2.
  set (f := inject_Z (Qfloor (a / b))) in *.
  assert (Ha : a == (a / b) * b) by (field; lra).
  split.
  - assert (b * f <= (a / b) * b) by nra. lra.
  - assert ((a / b) * b < b * (f + 1)) by nra. lra.
Qed.

Lemma py_mod_full_turn (a : Q) : a == 360 -> py_mod a 360 == 0.
Proof.
  intros Ha. unfold py_mod.
  assert (Hf : Qfloor (a / 360) = 1%Z).
  { rewrite Ha. reflexivity. }
  rewrite Hf, Ha. reflexivity.
Qed.

Lemma for_enumerate_Forall {A} (P : draw_call -> Prop)
    (body : Image -> Z -> A -> result Image) (values : list A) :
  (forall im i v im', body im i v = Ok im' ->
     exists c, im' = image_draw im c /\ P c) ->
  forall i im im',
    for_enumerate body values i im = Ok im' ->
    exists calls, img_calls im' = img_calls im ++ calls /\ Forall P calls
                  /\ length calls = length values.
Proof.
  intros Hbody. induction values as [| v values IH]; intros i im im' H;
    simpl in H.
  - injection H as <-. exists []. by rewrite app_nil_r.
  - inv_bind H. apply IH in H as (calls & Hc & HP & Hl).
    apply Hbody in E as (c & -> & HPc).
    exists (c :: calls). simpl in Hc. rewrite <- app_assoc in Hc.
    split; [exact Hc |]. split; [by constructor | simpl; lia].
Qed.

Lemma Bar_draw_bar_rows (curvature : Z) (sep maxh minh bw : Q) (r : bool)
    (by_ sh sw : Z) (im : Image) (i : Z) (v : Q) (im' : Image) :
  (1 <= sh)%Z ->
  Bar_draw_bar curvature sep maxh minh bw r by_ sh sw im i v = Ok im' ->
  exists c, im' = image_draw im c /\ bar_in_rows sh c.
Proof.
  intros Hsh. unfold Bar_draw_bar. cbv zeta.
  set (ys := Z.max (Z.min (py_int (inject_Z by_ - (minh + (maxh - minh) * v)))
                          (sh - 1)) 0).
  set (ye := Z.max (Z.min (if r then py_int (inject_Z by_
                                             + (minh + (maxh - minh) * v))
                           else by_) (sh - 1)) 0).
  assert (Hys : (0 <= ys <= sh - 1)%Z) by (unfold ys; lia).
  assert (Hye : (0 <= ye <= sh - 1)%Z) by (unfold ye; lia).
  destruct (ys >? ye)%Z eqn:Egt.
  - apply Z.gtb_lt in Egt. intros H.
    repeat match type of H with
      | context [if ?b then _ else _] => destruct b
      end; try discriminate H; injection H as <-;
      eexists; (split; [reflexivity |]); simpl; lia.
  - assert (Hle : (ys <= ye)%Z).
    { destruct (Z.gtb_spec ys ye); [discriminate | lia]. }
    intros H.
    repeat match type of H with
      | context [if ?b then _ else _] => destruct b
      end; try discriminate H; injection H as <-;
      eexists; (split; [reflexivity |]); simpl; lia.
Qed.

(** X13.  What [FlexAudioVisualizerBar.draw] puts on the image, for an image
    of at least one row: first one bar for each entry of the state, every
    bar clamped to the rows [0 .. height-1] with its top not below its
    bottom, then, last, the rotation by [rotation % 360], which lies in
    [0, 360) and is skipped when it is 0.  A rotation of a full turn (360,
    the top of the declared range) therefore rotates nothing. *)
Theorem Bar_draw_layout (self self' : option (list Q))
    (p : BaseAudioProcessor) (kwargs : gmap string pyval) (im : Image)
    (rotation : Q) :
  Bar_draw self p kwargs = Ok (self', im) ->
  kw_num kwargs "rotation" = Ok rotation -> (1 <= height p)%Z ->
  0 <= py_mod rotation 360 < 360 /\
  (rotation == 360 -> rotation_calls (py_mod rotation 360) = []) /\
  exists bars calls,
    self = Some bars /\ length calls = length bars /\
    Forall (bar_in_rows (height p)) calls /\
    img_calls im = calls ++ rotation_calls (py_mod rotation 360).
Proof.
  intros H Hrot Hh.
  split; [apply py_mod_range; lra |]. split.
  { intros Hr. unfold rotation_calls.
    replace (Qeq_bool _ 0) with true; [reflexivity |].
    symmetry. apply Qeq_bool_iff. by apply py_mod_full_turn. }
  unfold Bar_draw in H. inv_bind H. injection Hrot as ->.
  destruct self as [bars |]; [| discriminate].
  match goal with
  | Ez : np_zeros_image _ _ = Ok ?im0,
    Eb : Ok bars = Ok ?b,
    Ef : for_enumerate _ ?b _ ?im0 = Ok ?im1 |- _ =>
      injection Eb as <-;
      apply np_zeros_image_calls in Ez;
      apply (for_enumerate_Forall (bar_in_rows (height p))) in Ef
        as (calls & Hc & HP & Hl);
      [| intros ? ? ? ? Hb; by apply Bar_draw_bar_rows in Hb];
      rewrite Ez in Hc; simpl in Hc
  end.
  injection H as _ <-. exists bars, calls.
  split; [reflexivity |]. split; [exact Hl |]. split; [exact HP |].
  unfold rotation_calls. destruct (Qeq_bool _ 0); simpl.
  - by rewrite app_nil_r.
  - by rewrite Hc.
Qed.

Lemma Bar_draw_layout_witness :
  exists self' im calls,
    Bar_draw (Some [1 # 4; 1]) processor_8
      (<["rotation"%string := VFloat 360]> kwargs_bar) = Ok (self', im)
    /\ img_calls im = calls /\ length calls = 2%nat
    /\ Forall (bar_in_rows 100) calls.
Proof.
  destruct (Bar_draw (Some [1 # 4; 1]) processor_8
              (<["rotation"%string := VFloat 360]> kwargs_bar))
    as [[self' im] |] eqn:E; [| vm_compute in E; discriminate].
  destruct (Bar_draw_layout _ _ _ _ _ 360 E)
    as (_ & Hfull & bars & calls & Hb & Hl & HP & Hc);
    [vm_compute; reflexivity | discriminate |].
  injection Hb as <-. rewrite Hfull, app_nil_r in Hc by reflexivity.
  exists self', im, calls. split; [reflexivity |].
  split; [exact Hc |]. split; [exact Hl | exact HP].
Defined.
